(** * Significant locations (cortex.primary.significant_locations)

    A shallow embedding of [src/cortex/primary/significant_locations.py]
    and the properties of its reducer, extractors, proximity merge and
    dwell-duration estimator.

    Conventions of the embedding:
    - Python [int]s (timestamps, counts, ranks, labels) are [Z];
    - Python/numpy floats (coordinates, proportions, distances) are exact
      rationals [Q]; the transcendental primitives the source takes from
      [math] and [numpy] are the fields of the class [Numeric]; where a
      property depends on the rounding of a float operation the operation
      is modelled on IEEE 754 binary64 ([binary64], [remove_clusters64]);
    - the timestamps are [numpy.int64] scalars, whose arithmetic wraps
      around ([int64]);
    - Python exceptions are the [Raise] results of the type [result];
    - lists of dicts mutated by index are lists updated with stdpp's
      lookup [!!] and insert [<[i:=x]>]. *)

From Stdlib Require Import ZArith QArith Lia Lqa Floats.
From stdpp Require Import base list sorting.

Open Scope Z_scope.

(** ** Exceptions *)

Inductive exn : Type :=
| KeyError            (* pandas: a column or index label that is not there *)
| UnboundLocalError   (* a local read before any assignment *)
| IndexError
| Failure (code : nat). (* raised by an external collaborator *)

Inductive result (A : Type) : Type :=
| Ok (a : A)
| Raise (e : exn).
Arguments Ok {A} a.
Arguments Raise {A} e.

#[global] Instance result_ret : MRet result := fun A a => Ok a.
#[global] Instance result_bind : MBind result := fun A B f m =>
  match m with
  | Ok a => f a
  | Raise e => Raise e
  end.

(** ** Data model *)

(** A GPS reading as returned by the raw [gps] feature. *)
Record reading : Type := mk_reading {
  timestamp : Z;
  latitude : Q;
  longitude : Q
}.

(** A data frame of readings with the extra ['cluster'] column. *)
Definition labelled : Type := (reading * Z)%type.

(** The ['timestamp'] and ['cluster'] columns. *)
Definition timestamps (df : list labelled) : list Z :=
  map (fun r : labelled => timestamp r.1) df.

Definition labels (df : list labelled) : list Z := map snd df.

(** ** numpy and pandas helpers used by [_location_duration] *)

(** [np.r_[a, m, b]] *)
Definition np_r_ (a : bool) (m : list bool) (b : bool) : list bool :=
  a :: m ++ [b].

(** [x != y] on two boolean arrays of one shape *)
Definition np_ne (x y : list bool) : list bool := zip_with xorb x y.

(** [np.flatnonzero]: the positions that hold [True], in ascending order *)
Fixpoint flatnonzero_from (k : Z) (l : list bool) : list Z :=
  match l with
  | [] => []
  | b :: l' => (if b then [k] else []) ++ flatnonzero_from (k + 1) l'
  end.

Definition flatnonzero (l : list bool) : list Z := flatnonzero_from 0 l.

(** [l[::2]] *)
Fixpoint stride2 {A : Type} (l : list A) : list A :=
  match l with
  | [] => []
  | x :: t => x :: match t with
                   | [] => []
                   | _ :: t' => stride2 t'
                   end
  end.

(** [s[k]] on a Series whose index is [0 .. len-1] (after [reset_index]):
    a label that is not in the index raises [KeyError]. *)
Definition series_get (s : list Z) (k : Z) : result Z :=
  if k <? 0 then Raise KeyError
  else match s !! Z.to_nat k with
       | Some v => Ok v
       | None => Raise KeyError
       end.

(** The entries of the ['timestamp'] column are [numpy.int64] scalars:
    their differences and sums wrap around on 64 bits (two's
    complement). *)
Definition int64 (z : Z) : Z := (z + 2 ^ 63) mod 2 ^ 64 - 2 ^ 63.

(** Python's [sum] of a list of [numpy.int64] scalars *)
Definition py_sum (l : list Z) : Z := foldl (fun a x => int64 (a + x)) 0 l.

(** ** Dwell-duration estimator *)

(** The loop over [idx_list] that fills [hometime_list]. *)
Fixpoint hometime (ts : list Z) (idx_list : list (Z * Z))
    (hometime_list : list Z) : result (list Z) :=
  match idx_list with
  | [] => Ok hometime_list
  | tup :: rest =>
      if tup.1 =? tup.2 then hometime ts rest hometime_list
      else
        t1 ← series_get ts tup.2;
        t0 ← series_get ts tup.1;
        hometime ts rest (hometime_list ++ [int64 (t1 - t0)])
  end.

Definition _location_duration (df : list labelled) (cluster : Z) : result Z :=
  let df := reverse df in
  let arr_ext :=
    np_r_ false (map (fun r : labelled => r.2 =? cluster) df) false in
  let idx := flatnonzero (np_ne (removelast arr_ext) (drop 1 arr_ext)) in
  let idx_list :=
    zip (stride2 (removelast idx))
        (map (fun e => e - 1) (stride2 (drop 1 idx))) in
  hometime_list ← hometime (timestamps df) idx_list [];
  Ok (py_sum hometime_list).

(** Orderings of the timestamp column, as boolean checks. *)
Fixpoint ascending (ts : list Z) : bool :=
  match ts with
  | a :: (b :: _) as t => (a <=? b) && ascending t
  | _ => true
  end.

Fixpoint descending (ts : list Z) : bool :=
  match ts with
  | a :: (b :: _) as t => (b <=? a) && descending t
  | _ => true
  end.

(** Timestamps as the GPS source gives them: milliseconds since the
    epoch, not negative and within [int64]. *)
Definition epoch_ms (ts : list Z) : bool :=
  forallb (fun t => (0 <=? t) && (t <? 2 ^ 63)) ts.

(** ** Floating-point primitives

    [numpy.cos], [math.sin], [math.cos], [math.sqrt] (and [x ** 0.5]),
    [math.atan2] and [math.pi] are library primitives; the embedding is
    parametric in them. *)

Class Numeric : Type := {
  cos : Q → Q;
  sin : Q → Q;
  sqrt : Q → Q;
  atan2 : Q → Q → Q;
  pi : Q
}.

(** [x < y] on floats *)
Definition Qltb (x y : Q) : bool := negb (Qle_bool y x).

(** ** Distance utilities *)

Section Distances.
Context `{Numeric}.
Open Scope Q_scope.

(** Planar approximation, in kilometers. *)
Definition _euclid (lat lng lat0 lng0 : Q) : Q :=
  (11025 # 100) * sqrt (((lat - lat0) ^ 2) + (((lng - lng0) * cos lat0) ^ 2)).

Definition euclid (g0 g1 : Q * Q) : Q := _euclid g0.1 g0.2 g1.1 g1.2.

(** Great-circle distance, in meters. *)
Definition distance (c1 c2 : Q * Q) : Q :=
  let R := 6378137 # 1000 in
  let dLat := c2.1 * pi / 180 - c1.1 * pi / 180 in
  let dLon := c2.2 * pi / 180 - c1.2 * pi / 180 in
  let a1 := sin (dLat / 2) * sin (dLat / 2) in
  let a2 := cos (c1.1 * pi / 180) * cos (c2.1 * pi / 180) in
  let a3 := sin (dLon / 2) * sin (dLon / 2) in
  let a := a1 + (a2 * a3) in
  let c := 2 * atan2 (sqrt a) (sqrt (1 - a)) in
  let d := R * c in
  d * 1000.

(** [math.sqrt] raises [ValueError] on a negative argument; [distance]
    is the value the source returns when it returns one, which it does
    when the two arguments [a] and [1 - a] of [math.sqrt] are not
    negative. *)
Definition distance_defined (c1 c2 : Q * Q) : bool :=
  let dLat := c2.1 * pi / 180 - c1.1 * pi / 180 in
  let dLon := c2.2 * pi / 180 - c1.2 * pi / 180 in
  let a1 := sin (dLat / 2) * sin (dLat / 2) in
  let a2 := cos (c1.1 * pi / 180) * cos (c2.1 * pi / 180) in
  let a3 := sin (dLon / 2) * sin (dLon / 2) in
  let a := a1 + (a2 * a3) in
  Qle_bool 0 a && Qle_bool a 1.

End Distances.

(** ** Location records *)

Record location : Type := mk_location {
  loc_start : Z;
  loc_end : Z;
  loc_latitude : Q;
  loc_longitude : Q;
  rank : Z;
  radius : option Q;          (* [None] is Python's [None] *)
  proportion : Q;
  duration : Z
}.

Definition set_proportion (p : Q) (c : location) : location :=
  mk_location (loc_start c) (loc_end c) (loc_latitude c) (loc_longitude c)
    (rank c) (radius c) p (duration c).

Definition set_duration (d : Z) (c : location) : location :=
  mk_location (loc_start c) (loc_end c) (loc_latitude c) (loc_longitude c)
    (rank c) (radius c) (proportion c) d.

Definition set_rank (r : Z) (c : location) : location :=
  mk_location (loc_start c) (loc_end c) (loc_latitude c) (loc_longitude c)
    r (radius c) (proportion c) (duration c).

Definition latlon (c : location) : Q * Q := (loc_latitude c, loc_longitude c).

(** ** Proximity merge *)

Section ProximityMerge.
Context `{Numeric}.

(** The body of the inner loop, lines 91-96: the three item assignments
    are done in the order of the source on the list of dicts. *)
Definition merge_pair (MAX_DIST : Q) (big_cluster_latlon : Q * Q)
    (i j : nat) (clusters : list location) : list location :=
  match clusters !! j with
  | None => clusters
  | Some cj =>
      let small_cluster_latlon := latlon cj in
      let dist := distance big_cluster_latlon small_cluster_latlon in
      if Qltb dist MAX_DIST then
        let clusters :=
          alter (fun ci => set_proportion (proportion ci + proportion cj) ci)
                i clusters in
        let clusters := alter (set_proportion 0) j clusters in
        match clusters !! j with
        | None => clusters
        | Some cj' =>
            alter (fun ci => set_duration (duration ci + duration cj') ci)
                  i clusters
        end
      else clusters
  end.

(** One iteration of the outer loop, lines 87-98. *)
Definition merge_from (MAX_DIST : Q) (n i : nat) (clusters : list location)
    : list location :=
  match clusters !! i with
  | None => clusters
  | Some ci =>
      let big_cluster_prop := proportion ci in
      if Qltb 0 big_cluster_prop then
        let big_cluster_latlon := latlon ci in
        foldl (fun cl j => merge_pair MAX_DIST big_cluster_latlon i j cl)
              clusters (seq (i + 1) (n - (i + 1)))
      else clusters
  end.

(** The state of [clusters] after the first [k] iterations of the outer
    loop. *)
Definition merge_upto (MAX_DIST : Q) (clusters : list location) (k : nat)
    : list location :=
  let n := length clusters in
  foldl (fun cl i => merge_from MAX_DIST n i cl) clusters (seq 0 k).

(** Lines 84-98: [for i in range(n - 1)]. *)
Definition merge_scan (MAX_DIST : Q) (clusters : list location)
    : list location :=
  merge_upto MAX_DIST clusters (length clusters - 1).

Definition remove_clusters (clusters : list location) (MAX_DIST : Q)
    : list location :=
  let clusters := merge_scan MAX_DIST clusters in
  let clusters := List.filter (fun cl => Qltb 0 (proportion cl)) clusters in
  imap (fun i cl => set_rank (Z.of_nat i) cl) clusters.

End ProximityMerge.

(** *** The merge on binary64 proportions

    ['proportion'] holds Python floats, and [+=] on them rounds.  The
    loops above read the proportions as exact rationals; the loops below
    are the same loops with the proportions in IEEE 754 binary64, for
    what depends on the rounding. *)

Record location64 : Type := mk_location64 {
  loc_start64 : Z;
  loc_end64 : Z;
  loc_latitude64 : Q;
  loc_longitude64 : Q;
  rank64 : Z;
  radius64 : option Q;
  proportion64 : float;
  duration64 : Z
}.

Definition set_proportion64 (p : float) (c : location64) : location64 :=
  mk_location64 (loc_start64 c) (loc_end64 c) (loc_latitude64 c)
    (loc_longitude64 c) (rank64 c) (radius64 c) p (duration64 c).

Definition set_duration64 (d : Z) (c : location64) : location64 :=
  mk_location64 (loc_start64 c) (loc_end64 c) (loc_latitude64 c)
    (loc_longitude64 c) (rank64 c) (radius64 c) (proportion64 c) d.

Definition set_rank64 (r : Z) (c : location64) : location64 :=
  mk_location64 (loc_start64 c) (loc_end64 c) (loc_latitude64 c)
    (loc_longitude64 c) r (radius64 c) (proportion64 c) (duration64 c).

Definition latlon64 (c : location64) : Q * Q :=
  (loc_latitude64 c, loc_longitude64 c).

(** Python's [sum] of a list of floats *)
Definition sum64 (l : list float) : float := foldl PrimFloat.add 0%float l.

Section ProximityMerge64.
Context `{Numeric}.

Definition merge_pair64 (MAX_DIST : Q) (big_cluster_latlon : Q * Q)
    (i j : nat) (clusters : list location64) : list location64 :=
  match clusters !! j with
  | None => clusters
  | Some cj =>
      let small_cluster_latlon := latlon64 cj in
      let dist := distance big_cluster_latlon small_cluster_latlon in
      if Qltb dist MAX_DIST then
        let clusters :=
          alter (fun ci => set_proportion64
                             (proportion64 ci + proportion64 cj)%float ci)
                i clusters in
        let clusters := alter (set_proportion64 0%float) j clusters in
        match clusters !! j with
        | None => clusters
        | Some cj' =>
            alter (fun ci => set_duration64 (duration64 ci + duration64 cj') ci)
                  i clusters
        end
      else clusters
  end.

Definition merge_from64 (MAX_DIST : Q) (n i : nat)
    (clusters : list location64) : list location64 :=
  match clusters !! i with
  | None => clusters
  | Some ci =>
      let big_cluster_prop := proportion64 ci in
      if PrimFloat.ltb 0%float big_cluster_prop then
        let big_cluster_latlon := latlon64 ci in
        foldl (fun cl j => merge_pair64 MAX_DIST big_cluster_latlon i j cl)
              clusters (seq (i + 1) (n - (i + 1)))
      else clusters
  end.

Definition merge_scan64 (MAX_DIST : Q) (clusters : list location64)
    : list location64 :=
  let n := length clusters in
  foldl (fun cl i => merge_from64 MAX_DIST n i cl) clusters (seq 0 (n - 1)).

Definition remove_clusters64 (clusters : list location64) (MAX_DIST : Q)
    : list location64 :=
  let clusters := merge_scan64 MAX_DIST clusters in
  let clusters :=
    List.filter (fun cl => PrimFloat.ltb 0%float (proportion64 cl)) clusters in
  imap (fun i cl => set_rank64 (Z.of_nat i) cl) clusters.

End ProximityMerge64.

(** ** Reduction state and external collaborators *)

Record summary_point : Type := mk_summary_point {
  sp_latitude : Q;
  sp_longitude : Q;
  count : Z
}.

(** The attachment ['cortex.significant_locations.reduced']. *)
Record reduced : Type := mk_reduced {
  r_end : Z;                      (* ['end'] *)
  r_data : list summary_point     (* ['data'] *)
}.

Record kwargs : Type := mk_kwargs {
  kw_id : nat;
  kw_start : Z;
  kw_end : Z
}.

(** What one invocation sees of the attachment store, the GPS source and
    scikit-learn.  A collaborator that fails returns [Raise]. *)
Record World : Type := mk_World {
  (* [LAMP.Type.get_attachment(id, key)['data']] *)
  get_attachment : nat → result reduced;
  (* [LAMP.Type.set_attachment(id, 'me', key, body)] *)
  set_attachment : nat → reduced → result unit;
  (* [gps(id=..., start=..., end=...)['data']] *)
  gps : nat → Z → Z → result (list reading);
  (* [DBSCAN(eps=eps).fit_predict(points)]: one label per point *)
  fit_predict : Q → list (Q * Q) → list Z;
  (* [KMeans(n_clusters=i).fit(df2).score(df2)] *)
  kmeans_score : Z → list (Q * Q) → Q;
  (* [KMeans(n_clusters=k, init='k-means++').fit(df2).cluster_centers_] *)
  cluster_centers : Z → list (Q * Q) → list (Q * Q);
  (* [.predict(points)] of that fitted model: one label per point *)
  predict : Z → list (Q * Q) → list (Q * Q) → list Z
}.

(** Computations that call the collaborators: the state is the list of
    bodies written with [set_attachment] so far. *)
Definition io (A : Type) : Type := list reduced → result A * list reduced.

Definition io_ret {A} (a : A) : io A := fun log => (Ok a, log).

Definition io_bind {A B} (m : io A) (f : A → io B) : io B := fun log =>
  match m log with
  | (Ok a, log') => f a log'
  | (Raise e, log') => (Raise e, log')
  end.

Definition lift {A} (r : result A) : io A := fun log => (r, log).

Notation "x <- m ;; k" := (io_bind m (fun x => k))
  (at level 100, m at next level, right associativity).

(** A write that succeeds is recorded. *)
Definition write_attachment (W : World) (id : nat) (body : reduced) : io unit :=
  fun log =>
    match set_attachment W id body with
    | Ok u => (Ok u, log ++ [body])
    | Raise e => (Raise e, log)
    end.

(** ** pandas and numpy helpers of the extractors *)

Definition coords (df : list reading) : list (Q * Q) :=
  map (fun r => (latitude r, longitude r)) df.

(** [df[name]] on a frame built by [pd.DataFrame.from_dict] from a list
    of reading dicts: the frame of an empty list has no columns, and
    selecting one raises [KeyError]. *)
Definition column {A : Type} (f : reading → A) (df : list reading)
    : result (list A) :=
  match df with
  | [] => Raise KeyError
  | _ => Ok (map f df)
  end.

(** [s.shift()]: the first entry is NaN *)
Definition shift (s : list Z) : list (option Z) :=
  match s with
  | [] => []
  | _ => None :: map Some (removelast s)
  end.

(** [df[mask]] *)
Fixpoint select {A : Type} (mask : list bool) (df : list A) : list A :=
  match mask, df with
  | b :: mask', r :: df' => (if b then [r] else []) ++ select mask' df'
  | _, _ => []
  end.

(** [df[df['timestamp'] != df['timestamp'].shift()]] *)
Definition drop_repeated_timestamps (df : list reading)
    : result (list reading) :=
  ts ← column timestamp df;
  let mask :=
    zip_with (fun t prev => match prev with
                            | Some t' => negb (t =? t')
                            | None => true
                            end) ts (shift ts) in
  Ok (select mask df).

(** [np.split(df, indices)] *)
Fixpoint np_split_from {A : Type} (prev : nat) (indices : list nat)
    (df : list A) : list (list A) :=
  match indices with
  | [] => [drop prev df]
  | i :: indices' =>
      take (i - prev) (drop prev df) :: np_split_from i indices' df
  end.

Definition np_split {A : Type} (df : list A) (indices : list nat)
    : list (list A) :=
  np_split_from 0 indices df.

(** [math.ceil(n / m)] for a length [n] and a positive [m] *)
Definition ceil_div (n : nat) (m : Z) : nat :=
  Z.to_nat ((Z.of_nat n + (m - 1)) / m).

(** [np.unique]: the sorted distinct values *)
Fixpoint insert_unique (x : Z) (l : list Z) : list Z :=
  match l with
  | [] => [x]
  | y :: l' =>
      if x <? y then x :: y :: l'
      else if x =? y then y :: l'
      else y :: insert_unique x l'
  end.

Definition np_unique (l : list Z) : list Z := foldr insert_unique [] l.

(** [np.mean] of a non-empty list (of an empty one numpy gives nan; the
    source takes the mean of non-empty lists only) *)
Definition np_mean (l : list Q) : Q :=
  (foldl Qplus 0 l / inject_Z (Z.of_nat (length l)))%Q.

(** [np.argmin]: the first position of the minimum (numpy raises on an
    empty list; the source calls it on a non-empty one) *)
Fixpoint argmin_from (best : nat) (best_value : Q) (i : nat) (l : list Q)
    : nat :=
  match l with
  | [] => best
  | x :: l' =>
      if Qltb x best_value then argmin_from i x (S i) l'
      else argmin_from best best_value (S i) l'
  end.

Definition np_argmin (l : list Q) : nat :=
  match l with
  | [] => 0%nat
  | x :: l' => argmin_from 0 x 1 l'
  end.

(** [range(a, b)] *)
Definition range (a b : Z) : list Z :=
  map (fun i => a + Z.of_nat i) (seq 0 (Z.to_nat (b - a))).

(** The rows of [d] whose label in [props] is [l]. *)
Definition members {A : Type} (d : list A) (props : list Z) (l : Z) : list A :=
  select (map (fun p => p =? l) props) d.

(** ** Incremental reducer *)

Section Reducer.
Context `{Numeric}.

Definition add_count (n : Z) (p : summary_point) : summary_point :=
  mk_summary_point (sp_latitude p) (sp_longitude p) (count p + n).

(** Lines 157-171: a cluster of [size] readings with centroid
    [(lat_mean, long_mean)].  [data] is [reduced_data['data']]; the dicts
    of [new_reduced_data] are the dicts of [data] (a shallow copy), of
    which only ['count'] is written here and only the coordinates are
    read, so they are modelled by value. *)
Definition snap (data new_reduced_data db_points : list summary_point)
    (lat_mean long_mean : Q) (size : Z)
    : list summary_point * list summary_point :=
  if (length data =? 0)%nat then
    (new_reduced_data,
     db_points ++ [mk_summary_point lat_mean long_mean size])
  else
    let min_dist_index :=
      np_argmin (map (fun loc => euclid (sp_latitude loc, sp_longitude loc)
                                        (lat_mean, long_mean)) data) in
    match data !! min_dist_index with
    | None => (new_reduced_data, db_points)  (* not reached: see [snap_spec] *)
    | Some nearest =>
        if Qltb (euclid (sp_latitude nearest, sp_longitude nearest)
                        (lat_mean, long_mean)) 20
        then (alter (add_count size) min_dist_index new_reduced_data,
              db_points)
        else (new_reduced_data,
              db_points ++ [mk_summary_point lat_mean long_mean size])
    end.

(** The body of [for l in np.unique(props)], lines 150-171. *)
Definition label_step (data : list summary_point) (d : list reading)
    (props : list Z) (st : list summary_point * list summary_point) (l : Z)
    : list summary_point * list summary_point :=
  let '(new_reduced_data, db_points) := st in
  let db_lats := map latitude (members d props l) in
  let db_longs := map longitude (members d props l) in
  if l =? -1 then
    (new_reduced_data,
     db_points ++ zip_with (fun lat lon => mk_summary_point lat lon 1)
                           db_lats db_longs)
  else
    let lat_mean := np_mean db_lats in
    let long_mean := np_mean db_longs in
    snap data new_reduced_data db_points lat_mean long_mean
         (Z.of_nat (length db_lats)).

(** The body of [for d in cut_df], lines 140-175. *)
Definition reduce_chunk (W : World) (eps : Q) (kw : kwargs)
    (reduced_data : reduced) (d : list reading) : reduced :=
  if (length d =? 0)%nat then reduced_data
  else
    let new_reduced_data := r_data reduced_data in
    let props := fit_predict W eps (coords d) in
    let '(new_reduced_data, db_points) :=
      foldl (label_step (r_data reduced_data) d props)
            (new_reduced_data, []) (np_unique props) in
    let new_reduced_data := new_reduced_data ++ db_points in
    mk_reduced (kw_end kw) new_reduced_data.

Definition cut (df : list reading) : list (list reading) :=
  np_split df (map (fun i => Z.to_nat (30000 * Z.of_nat i))
                   (seq 0 (ceil_div (length df) 30000))).

(** Lines 128-177.  [inr l] is the early [return l] of line 136. *)
Definition reduce (W : World) (eps : Q) (kw : kwargs) (reduced_data : reduced)
    : io (reduced + list location) :=
  let reduced_data_end := r_end reduced_data in
  if reduced_data_end <? kw_end kw then
    _gps <- lift (gps W (kw_id kw) reduced_data_end (kw_end kw)) ;;
    df <- lift (drop_repeated_timestamps _gps) ;;
    if (length df =? 0)%nat then io_ret (inr [])
    else
      let reduced_data := foldl (reduce_chunk W eps kw) reduced_data (cut df) in
      _ <- write_attachment W (kw_id kw) reduced_data ;;
      io_ret (inl reduced_data)
  else io_ret (inl reduced_data).

(** Lines 123-126: any exception of the read is caught. *)
Definition load (W : World) (kw : kwargs) : reduced :=
  match get_attachment W (kw_id kw) with
  | Ok reduced_data => reduced_data
  | Raise _ => mk_reduced 0 []
  end.

End Reducer.

(** ** Density extractor *)

Section DensityExtractor.
Context `{Numeric}.

(** Line 187 *)
Definition K_clusters (k_max pointcount : Z) : list Z :=
  range 1 (Z.min k_max pointcount).

(** Lines 193-199; [None] when the loop leaves [k] unassigned.
    [abs (score[i + 1] - score[i] < .01)] is the absolute value of the
    comparison, that is, the comparison. *)
Fixpoint elbow (i : Z) (score : list Q) : option Z :=
  match score with
  | [] => None
  | s :: rest =>
      match rest with
      | [] => Some (i + 1)
      | s' :: _ =>
          if Qltb (s' - s) (1 # 100) then Some (i + 1)
          else elbow (i + 1) rest
      end
  end.

(** One dict of the list of lines 218-232. *)
Definition kmeans_record (kw : kwargs) (newdf : list reading) (props : list Z)
    (idx : nat) (center : Q * Q) : result location :=
  let assigned := members (coords newdf) props (Z.of_nat idx) in
  let radius :=
    if (0 <? length assigned)%nat
    then Some (np_mean (map (fun p => euclid center p * 1000)%Q assigned))
    else None in
  let proportion :=
    (inject_Z (Z.of_nat (length assigned))
     / inject_Z (Z.of_nat (length props)))%Q in
  duration ← _location_duration (zip newdf props) (Z.of_nat idx);
  Ok (mk_location (kw_start kw) (kw_end kw) center.1 center.2
                  (Z.of_nat idx) radius proportion duration).

Fixpoint collect {A B : Type} (f : nat → A → result B) (i : nat) (l : list A)
    : result (list B) :=
  match l with
  | [] => Ok []
  | x :: l' => y ← f i x; ys ← collect f (S i) l'; Ok (y :: ys)
  end.

(** Lines 180-232. *)
Definition extract (W : World) (k_max : Z) (kw : kwargs) (reduced_data : reduced)
    : io (list location) :=
  let expanded_data :=
    flat_map (fun point => replicate (Z.to_nat (count point))
                             (sp_latitude point, sp_longitude point))
             (r_data reduced_data) in
  df2 <- lift (match expanded_data with
               | [] => Raise KeyError
               | _ => Ok expanded_data
               end) ;;
  let score :=
    map (fun i => kmeans_score W i df2)
        (K_clusters k_max (Z.of_nat (length expanded_data))) in
  k <- lift (match elbow 0 score with
             | Some k => Ok k
             | None => Raise UnboundLocalError
             end) ;;
  let centers := cluster_centers W k df2 in
  _gps <- lift (gps W (kw_id kw) (kw_start kw) (kw_end kw)) ;;
  if (length _gps =? 0)%nat then io_ret []
  else
    let props := predict W k df2 (coords _gps) in
    lift (collect (kmeans_record kw _gps props) 0 centers).

Definition _significant_locations_kmeans (W : World) (k_max : Z) (eps : Q)
    (kw : kwargs) : io (list location) :=
  r <- reduce W eps kw (load W kw) ;;
  match r with
  | inr early => io_ret early
  | inl reduced_data => extract W k_max kw reduced_data
  end.

End DensityExtractor.

(** ** Frequency ("mode") extractor *)

(** Python's [round(x, 3)]: the nearest multiple of 1/1000, ties to the
    even one. *)
Definition round3 (x : Q) : Q :=
  let n := Qnum x * 1000 in
  let d := Z.pos (Qden x) in
  let q := n / d in
  let twice := 2 * (n mod d) in
  (if twice <? d then q
   else if d <? twice then q + 1
   else if Z.even q then q else q + 1) # 1000.

Definition key_eqb (a b : Q * Q) : bool :=
  Qeq_bool a.1 b.1 && Qeq_bool a.2 b.2.

Definition key_ltb (a b : Q * Q) : bool :=
  Qltb a.1 b.1 || (Qeq_bool a.1 b.1 && Qltb a.2 b.2).

Fixpoint insert_key (x : Q * Q) (l : list (Q * Q)) : list (Q * Q) :=
  match l with
  | [] => [x]
  | y :: l' =>
      if key_ltb x y then x :: y :: l'
      else if key_eqb x y then y :: l'
      else y :: insert_key x l'
  end.

Fixpoint insert_by_count (p : Q * Q * nat) (l : list (Q * Q * nat))
    : list (Q * Q * nat) :=
  match l with
  | [] => [p]
  | q :: l' =>
      if (p.2 <? q.2)%nat then q :: insert_by_count p l' else p :: q :: l'
  end.

(** [df[['latitude', 'longitude']].value_counts()]: the distinct pairs
    with their numbers of rows, most frequent first; pairs of one
    frequency are kept in ascending order of the pair. *)
Definition value_counts (l : list (Q * Q)) : list (Q * Q * nat) :=
  let keys := foldr insert_key [] l in
  let groups :=
    map (fun k => (k, length (List.filter (key_eqb k) l))) keys in
  foldr insert_by_count [] groups.

(** [int(x)] of a float: truncation toward zero *)
Definition py_int (x : Q) : Z := Z.quot (Qnum x) (Z.pos (Qden x)).

(** [2 ** e] *)
Definition pow2 (e : Z) : Q :=
  if 0 <=? e then inject_Z (2 ^ e) else 1 # Z.to_pos (2 ^ (- e)).

(** The IEEE 754 binary64 value nearest to [x], ties to the even
    significand: what a float operation returns whose exact result is
    [x] (an overflow to infinity is outside the model). *)
Definition binary64 (x : Q) : Q :=
  if Qeq_bool x 0 then 0%Q
  else
    let ax := if Qle_bool 0 x then x else (- x)%Q in
    let e0 := Z.log2 (Qnum ax) - Z.log2 (Z.pos (Qden ax)) in
    let e := if Qle_bool (pow2 e0) ax then e0 else e0 - 1 in
    let ulp := pow2 (Z.max e (-1022) - 52) in
    let q := (ax / ulp)%Q in
    let n := Qnum q in
    let d := Z.pos (Qden q) in
    let m := n / d in
    let twice := 2 * (n mod d) in
    let m := if twice <? d then m
             else if d <? twice then m + 1
             else if Z.even m then m else m + 1 in
    ((if Qle_bool 0 x then inject_Z m else inject_Z (- m)) * ulp)%Q.

(** [min_cluster_size * len(df)]: the float [min_cluster_size] times the
    length converted to a float, rounded. *)
Definition float_times_len (min_cluster_size : Q) (len_df : nat) : Q :=
  binary64 (binary64 min_cluster_size
            * binary64 (inject_Z (Z.of_nat len_df))).

(** [df_clusters.loc[(lat == pt[0]) & (lon == pt[1]), 'cluster'] = k;
    cluster_locs.append(pt)] *)
Definition assign (rounded : list (Q * Q)) (k : Z) (pt : Q * Q)
    (st : list Z * list (Q * Q)) : list Z * list (Q * Q) :=
  (zip_with (fun row label => if key_eqb row pt then k else label)
            rounded st.1,
   st.2 ++ [pt]).

(** Lines 275-281; [fuel] bounds the iterations, each of which
    increments [k] below [len(top_counts)]. *)
Fixpoint select_by_size (fuel : nat) (rounded : list (Q * Q))
    (top_counts : list (Q * Q * nat)) (min_cluster_points : Z) (len_df : nat)
    (k : nat) (st : list Z * list (Q * Q)) : list Z * list (Q * Q) :=
  match fuel with
  | O => st
  | S fuel' =>
      match top_counts !! k with
      | Some (pt, c) =>
          if (min_cluster_points <? Z.of_nat c)
             && (Z.of_nat k <? Z.of_nat len_df - 1)
          then select_by_size fuel' rounded top_counts min_cluster_points
                 len_df (S k) (assign rounded (Z.of_nat k) pt st)
          else st
      | None => st
      end
  end.

Section ModeExtractor.
Context `{Numeric}.

(** One dict of the list of lines 284-299.  [size] of a frame is its
    number of rows times its (positive) number of columns; the model
    counts rows. *)
Definition mode_record (kw : kwargs) (df : list reading)
    (df_clusters : list labelled) (idx : nat) (center : Q * Q)
    : result location :=
  let cluster := labels df_clusters in
  let assigned := members df cluster (Z.of_nat idx) in
  let not_idx :=
    select (map (fun l => negb (l =? Z.of_nat idx)) cluster) df in
  let not_unassigned :=
    select (map (fun l => negb (l =? -1)) cluster) df in
  let radius :=
    if negb (length not_idx =? 0)%nat
    then Some (np_mean
                 (map (fun r => euclid (center.2, center.1)
                                       (longitude r, latitude r) * 1000)%Q
                      assigned))
    else None in
  let proportion :=
    (inject_Z (Z.of_nat (length assigned))
     / inject_Z (Z.of_nat (length not_unassigned)))%Q in
  duration ← _location_duration df_clusters (Z.of_nat idx);
  Ok (mk_location (kw_start kw) (kw_end kw) center.1 center.2
                  (Z.of_nat idx) radius proportion duration).

(** Lines 235-299. *)
Definition _significant_locations_mode (W : World) (max_clusters : Z)
    (min_cluster_size : Q) (MAX_DIST : Q) (kw : kwargs)
    : io (list location) :=
  _gps <- lift (gps W (kw_id kw) (kw_start kw) (kw_end kw)) ;;
  if (length _gps =? 0)%nat then io_ret []
  else
    df <- lift (drop_repeated_timestamps _gps) ;;
    let ind := replicate (length df) (-1) in
    let rounded :=
      map (fun r => (round3 (latitude r), round3 (longitude r))) df in
    let top_counts := value_counts rounded in
    let top_points := map fst top_counts in
    let min_cluster_points :=
      py_int (float_times_len min_cluster_size (length df)) in
    let '(cluster, cluster_locs) :=
      if negb (max_clusters =? -1) then
        foldl (fun st k =>
                 match top_points !! Z.to_nat k with
                 | Some pt => assign rounded k pt st
                 | None => st
                 end)
              (ind, []) (range 0 max_clusters)
      else
        select_by_size (length top_counts) rounded top_counts
          min_cluster_points (length df) 0 (ind, []) in
    let df_clusters :=
      zip (zip_with (fun r p => mk_reading (timestamp r) p.1 p.2) df rounded)
          cluster in
    records <- lift (collect (mode_record kw df df_clusters) 0 cluster_locs) ;;
    io_ret (remove_clusters records MAX_DIST).

End ModeExtractor.

(** Rational stand-ins for the floating-point primitives, good for small
    arguments, with which the examples below are evaluated. *)
Definition sample_sqrt (x : Q) : Q :=
  (* square root to nine decimal places, exact on squares of such numbers *)
  let scale := (10 ^ 18)%Z in
  Z.sqrt (Qnum x * scale / Z.pos (Qden x)) # 1000000000.

Definition sample_sin (x : Q) : Q := (x - x ^ 3 / 6 + x ^ 5 / 120)%Q.
Definition sample_cos (x : Q) : Q := (1 - x ^ 2 / 2 + x ^ 4 / 24)%Q.
Definition sample_atan2 (y x : Q) : Q :=
  (* first quadrant, small angles *)
  if Qeq_bool x 0 then 0%Q else (let t := y / x in t - t ^ 3 / 3)%Q.

Definition sample_numeric : Numeric := {|
  cos := sample_cos;
  sin := sample_sin;
  sqrt := sample_sqrt;
  atan2 := sample_atan2;
  pi := 355 # 113
|}.

(** A world for the examples: the store answers [stored] to a read and
    [write] to a write, the GPS source answers [source] (its readings
    served by window), density clustering calls every point noise, and
    the partitioning model puts every reading in cluster 0 around the
    first [k] points. *)
Definition sample_world (stored : result reduced) (write : result unit)
    (source : result (list reading)) : World := {|
  get_attachment := fun _ => stored;
  set_attachment := fun _ _ => write;
  gps := fun _ t0 t1 =>
    readings ← source;
    Ok (List.filter (fun r => (t0 <=? timestamp r) && (timestamp r <? t1))
                    readings);
  fit_predict := fun _ points => map (fun _ => -1) points;
  kmeans_score := fun _ _ => 0%Q;
  cluster_centers := fun k points => take (Z.to_nat k) points;
  predict := fun _ _ points => map (fun _ => 0) points
|}.

(* ================================================================= *)
(** * Properties *)

(** ** Dwell-duration estimator *)

Section DwellDuration.

Implicit Types (ts : list Z) (idx : list Z).

Lemma flatnonzero_from_bounds k l x :
  x ∈ flatnonzero_from k l → k ≤ x < k + Z.of_nat (length l).
Proof.
  revert k; induction l as [|b l IH]; intros k; simpl.
  - intros H; inversion H.
  - rewrite elem_of_app. intros [H|H].
    + destruct b; [apply list_elem_of_singleton in H; lia | inversion H].
    + apply IH in H. lia.
Qed.

Lemma flatnonzero_from_sorted k l :
  StronglySorted Z.lt (flatnonzero_from k l).
Proof.
  revert k; induction l as [|b l IH]; intros k; simpl.
  - constructor.
  - destruct b; simpl; [|apply IH].
    constructor; [apply IH|].
    apply Forall_forall. intros x Hx.
    apply flatnonzero_from_bounds in Hx. lia.
Qed.

Lemma flatnonzero_from_all_false k l :
  Forall (fun b => b = false) l → flatnonzero_from k l = [].
Proof.
  intros H; revert k; induction H as [|b l Hb _ IH]; intros k; simpl; [done|].
  by rewrite Hb, IH.
Qed.

(** Spans paired off a strictly increasing index list are well formed. *)
Definition spans (idx : list Z) : list (Z * Z) :=
  zip (stride2 (removelast idx)) (map (fun e => e - 1) (stride2 (drop 1 idx))).

Lemma spans_cons2 a b idx :
  spans (a :: b :: idx) = (a, b - 1) :: spans idx.
Proof.
  unfold spans. destruct idx as [|c [|d idx]]; done.
Qed.

Lemma spans_ordered n idx :
  StronglySorted Z.lt idx →
  Forall (fun x => 0 ≤ x ≤ n) idx →
  Forall (fun p => 0 ≤ p.1 ≤ p.2 ∧ p.2 < n) (spans idx).
Proof.
  revert idx.
  assert (∀ m idx, (length idx ≤ m)%nat →
    StronglySorted Z.lt idx → Forall (fun x => 0 ≤ x ≤ n) idx →
    Forall (fun p => 0 ≤ p.1 ≤ p.2 ∧ p.2 < n) (spans idx)) as H.
  { induction m as [|m IH]; intros idx Hl Hs Hb.
    - destruct idx; [constructor | simpl in Hl; lia].
    - destruct idx as [|a [|b idx]]; [constructor | constructor |].
      rewrite spans_cons2.
      apply StronglySorted_inv in Hs as [Hs Ha].
      apply StronglySorted_inv in Hs as [Hs _].
      apply Forall_cons in Hb as [Hba Hb].
      apply Forall_cons in Hb as [Hbb Hb].
      apply Forall_cons in Ha as [Hab _].
      constructor; [simpl; lia|].
      apply IH; [simpl in Hl; lia | done | done]. }
  intros idx. by apply (H (length idx)).
Qed.

(** *** The estimator in unbounded integers

    [exact_sum] and [hometime_exact] are [py_sum] and [hometime] without
    the wrap-around of [int64]: the estimator is compared with them. *)
Definition exact_sum (l : list Z) : Z := foldl Z.add 0 l.

Fixpoint hometime_exact (ts : list Z) (idx_list : list (Z * Z))
    (hometime_list : list Z) : result (list Z) :=
  match idx_list with
  | [] => Ok hometime_list
  | tup :: rest =>
      if tup.1 =? tup.2 then hometime_exact ts rest hometime_list
      else
        t1 ← series_get ts tup.2;
        t0 ← series_get ts tup.1;
        hometime_exact ts rest (hometime_list ++ [t1 - t0])
  end.

Lemma exact_sum_foldl a l : foldl Z.add a l = a + exact_sum l.
Proof.
  unfold exact_sum. revert a. induction l as [|x l IH]; intros a; simpl; [lia|].
  rewrite (IH (a + x)), (IH (0 + x)). lia.
Qed.

Lemma exact_sum_app l1 l2 : exact_sum (l1 ++ l2) = exact_sum l1 + exact_sum l2.
Proof.
  unfold exact_sum at 1. rewrite foldl_app. fold (exact_sum l1).
  apply exact_sum_foldl.
Qed.

Lemma exact_sum_cons x l : exact_sum (x :: l) = x + exact_sum l.
Proof.
  change (x :: l) with ([x] ++ l). rewrite exact_sum_app.
  unfold exact_sum at 1. simpl. lia.
Qed.

Lemma exact_sum_sign (P : Z → Prop) l :
  P 0 → (∀ x y, P x → P y → P (x + y)) → Forall P l → P (exact_sum l).
Proof.
  intros H0 Hadd Hl. induction Hl as [|x l Hx _ IH]; [exact H0|].
  rewrite exact_sum_cons. by apply Hadd.
Qed.

(** The timestamp column is monotone by position. *)
Definition mono (R : Z → Z → Prop) ts : Prop :=
  ∀ i j a b, (i ≤ j)%nat → ts !! i = Some a → ts !! j = Some b → R a b.

Lemma ascending_mono ts : ascending ts = true → mono Z.le ts.
Proof.
  induction ts as [|x ts IH]; intros H i j a b Hij Hi Hj.
  - by rewrite lookup_nil in Hi.
  - assert (ascending ts = true ∧ ∀ y, ts !! 0%nat = Some y → x ≤ y) as [Ht Hx].
    { destruct ts as [|y ts]; [split; [done|intros y Hy; by rewrite lookup_nil in Hy]|].
      simpl in H. apply andb_prop in H as [Hxy Ht]. split; [exact Ht|].
      intros y' Hy'. simpl in Hy'. injection Hy' as <-. lia. }
    specialize (IH Ht).
    destruct i as [|i], j as [|j]; simpl in Hi, Hj.
    + injection Hi as <-. injection Hj as <-. lia.
    + injection Hi as <-.
      destruct ts as [|y ts]; [by rewrite lookup_nil in Hj|].
      specialize (Hx y eq_refl).
      assert (y ≤ b); [|lia].
      apply (IH 0%nat j y b); [lia|done|done].
    + lia.
    + apply (IH i j a b); [lia|done|done].
Qed.

Lemma descending_rev ts : descending ts = true → ascending (reverse ts) = true.
Proof.
  assert (∀ l x, ascending l = true → (∀ y, last l = Some y → y ≤ x) →
                 ascending (l ++ [x]) = true) as Hsnoc.
  { induction l as [|a l IH]; intros x Hl Hlast; [done|].
    destruct l as [|b l]; simpl.
    - specialize (Hlast a eq_refl). apply andb_true_intro. split; [lia|done].
    - simpl in Hl. apply andb_prop in Hl as [Hab Hl].
      apply andb_true_intro. split; [done|].
      apply (IH x Hl). intros y Hy. apply Hlast. exact Hy. }
  induction ts as [|a ts IH]; intros H; [done|].
  rewrite reverse_cons. apply Hsnoc.
  - apply IH. destruct ts as [|b ts]; [done|].
    simpl in H. by apply andb_prop in H as [_ H].
  - intros y Hy. destruct ts as [|b ts]; [done|].
    simpl in H. apply andb_prop in H as [Hba _].
    rewrite reverse_cons, last_snoc in Hy. injection Hy as <-. lia.
Qed.

Lemma ascending_rev ts : ascending ts = true → descending (reverse ts) = true.
Proof.
  assert (∀ l x, descending l = true → (∀ y, last l = Some y → x ≤ y) →
                 descending (l ++ [x]) = true) as Hsnoc.
  { induction l as [|a l IH]; intros x Hl Hlast; [done|].
    destruct l as [|b l]; simpl.
    - specialize (Hlast a eq_refl). apply andb_true_intro. split; [lia|done].
    - simpl in Hl. apply andb_prop in Hl as [Hab Hl].
      apply andb_true_intro. split; [done|].
      apply (IH x Hl). intros y Hy. apply Hlast. exact Hy. }
  induction ts as [|a ts IH]; intros H; [done|].
  rewrite reverse_cons. apply Hsnoc.
  - apply IH. destruct ts as [|b ts]; [done|].
    simpl in H. by apply andb_prop in H as [_ H].
  - intros y Hy. destruct ts as [|b ts]; [done|].
    simpl in H. apply andb_prop in H as [Hba _].
    rewrite reverse_cons, last_snoc in Hy. injection Hy as <-. lia.
Qed.

Lemma descending_mono ts : descending ts = true → mono Z.ge ts.
Proof.
  intros H i j a b Hij Hi Hj.
  pose proof (lookup_lt_Some _ _ _ Hi) as Hli.
  pose proof (lookup_lt_Some _ _ _ Hj) as Hlj.
  apply descending_rev, ascending_mono in H.
  assert (b ≤ a); [|lia].
  apply (H (length ts - S j)%nat (length ts - S i)%nat); [lia| |].
  - rewrite reverse_lookup by lia.
    replace (length ts - S (length ts - S j))%nat with j by lia. done.
  - rewrite reverse_lookup by lia.
    replace (length ts - S (length ts - S i))%nat with i by lia. done.
Qed.

(** Every span contributes a difference [ts[e] - ts[s]] with [s <= e], so
    a sign that the column's order gives to such differences is the sign
    of every entry of [hometime_list]. *)
Lemma hometime_exact_sign (P : Z → Prop) (R : Z → Z → Prop) ts sp acc :
  mono R ts → (∀ a b, R a b → P (b - a)) →
  Forall (fun p => 0 ≤ p.1 ≤ p.2 ∧ p.2 < Z.of_nat (length ts)) sp →
  Forall P acc →
  ∃ ds, hometime_exact ts sp acc = Ok ds ∧ Forall P ds.
Proof.
  intros Hmono HP Hsp. revert acc.
  induction Hsp as [|[s e] sp [Hse He] _ IH]; intros acc Hacc; simpl.
  - eauto.
  - simpl in Hse, He. destruct (s =? e) eqn:E; [by apply IH|].
    unfold series_get.
    destruct (e <? 0) eqn:E1; [lia|]. destruct (s <? 0) eqn:E2; [lia|].
    destruct (lookup_lt_is_Some_2 ts (Z.to_nat e)) as [te Hte]; [lia|].
    destruct (lookup_lt_is_Some_2 ts (Z.to_nat s)) as [t0 Ht0]; [lia|].
    rewrite Hte, Ht0. simpl. apply IH.
    apply Forall_app. split; [done|]. constructor; [|constructor].
    apply HP. apply (Hmono (Z.to_nat s) (Z.to_nat e)); [lia|done|done].
Qed.

(** The runs are disjoint stretches of the frame, so on a column that is
    monotone ([s = 1]: ascending, [s = -1]: descending) the differences
    they contribute have one sign and add up to no more than the
    distance from the timestamp at [lo] to the last timestamp. *)
Lemma hometime_exact_bounded (s : Z) ts tl :
  s = 1 ∨ s = -1 →
  mono (fun a b => s * a ≤ s * b) ts → last ts = Some tl →
  ∀ m idx acc lo tlo,
    (length idx ≤ m)%nat → StronglySorted Z.lt idx →
    Forall (fun x => Z.of_nat lo ≤ x ≤ Z.of_nat (length ts)) idx →
    ts !! lo = Some tlo →
    ∃ ds, hometime_exact ts (spans idx) acc = Ok (acc ++ ds) ∧
          Forall (fun d => 0 ≤ s * d ≤ s * (tl - tlo)) ds ∧
          0 ≤ s * exact_sum ds ≤ s * (tl - tlo).
Proof.
  intros Hs Hmono Hlast.
  assert (Hbase : ∀ lo tlo, ts !! lo = Some tlo → s * tlo ≤ s * tl).
  { intros lo tlo Hlo. rewrite last_lookup in Hlast.
    pose proof (lookup_lt_Some _ _ _ Hlo).
    apply (Hmono lo (Init.Nat.pred (length ts))); [lia|done|done]. }
  assert (Hnil : ∀ acc lo tlo, ts !! lo = Some tlo →
            ∃ ds, Ok acc = Ok (acc ++ ds) ∧
                  Forall (fun d => 0 ≤ s * d ≤ s * (tl - tlo)) ds ∧
                  0 ≤ s * exact_sum ds ≤ s * (tl - tlo)).
  { intros acc lo tlo Hlo. exists []. rewrite app_nil_r.
    split; [done|]. split; [constructor|].
    specialize (Hbase lo tlo Hlo). unfold exact_sum. simpl. lia. }
  induction m as [|m IH]; intros idx acc lo tlo Hlen Hsort Hb Hlo.
  - destruct idx; [|simpl in Hlen; lia]. by apply (Hnil acc lo).
  - destruct idx as [|a [|b idx]]; [by apply (Hnil acc lo)..|].
    rewrite spans_cons2.
    apply StronglySorted_inv in Hsort as [Hsort Ha].
    pose proof Hsort as Hsb. apply StronglySorted_inv in Hsb as [Hs' Hbr].
    apply Forall_cons in Hb as [Hba Hb].
    apply Forall_cons in Hb as [Hbb Hb].
    apply Forall_cons in Ha as [Hab _].
    cbn [hometime_exact fst snd].
    destruct (a =? b - 1) eqn:E.
    + apply (IH idx acc lo tlo); [simpl in Hlen; lia | done | done | done].
    + unfold series_get.
      destruct (b - 1 <? 0) eqn:E1; [lia|].
      destruct (a <? 0) eqn:E2; [lia|].
      destruct (lookup_lt_is_Some_2 ts (Z.to_nat (b - 1))) as [t1 Ht1]; [lia|].
      destruct (lookup_lt_is_Some_2 ts (Z.to_nat a)) as [t0 Ht0]; [lia|].
      rewrite Ht1, Ht0. cbn [mbind result_bind].
      destruct (IH idx (acc ++ [t1 - t0]) (Z.to_nat (b - 1)) t1)
        as (ds & Hds & Hall & Hsum); [simpl in Hlen; lia | done | | done |].
      { apply Forall_forall. intros x Hx.
        rewrite Forall_forall in Hbr, Hb.
        specialize (Hbr x Hx). specialize (Hb x Hx). lia. }
      assert (s * t0 ≤ s * t1).
      { apply (Hmono (Z.to_nat a) (Z.to_nat (b - 1))); [lia|done|done]. }
      assert (s * tlo ≤ s * t0).
      { apply (Hmono lo (Z.to_nat a)); [lia|done|done]. }
      pose proof (Hbase _ _ Ht1) as Ht1l.
      exists ((t1 - t0) :: ds). split; [|split].
      * rewrite Hds. by rewrite <- app_assoc.
      * constructor; [lia|].
        eapply Forall_impl; [exact Hall|]. intros d Hd. simpl in Hd. lia.
      * rewrite exact_sum_cons. lia.
Qed.

(** *** The wrap-around of [int64] *)

Lemma int64_small z : - 2 ^ 63 ≤ z < 2 ^ 63 → int64 z = z.
Proof. intros Hz. unfold int64. rewrite Z.mod_small; lia. Qed.

(** The two loops read the same entries, raise together, and the
    estimator's differences are the exact ones wrapped. *)
Lemma hometime_int64 ts sp : ∀ accE acc,
  match hometime_exact ts sp accE with
  | Ok out => ∃ ds, out = accE ++ ds ∧
                    hometime ts sp acc = Ok (acc ++ map int64 ds)
  | Raise e => hometime ts sp acc = Raise e
  end.
Proof.
  induction sp as [|[s e] sp IH]; intros accE acc; cbn [hometime_exact hometime fst snd].
  - exists []. by rewrite !app_nil_r.
  - destruct (s =? e); [apply IH|].
    destruct (series_get ts e) as [t1|x]; cbn [mbind result_bind]; [|done].
    destruct (series_get ts s) as [t0|x]; cbn [mbind result_bind]; [|done].
    specialize (IH (accE ++ [t1 - t0]) (acc ++ [int64 (t1 - t0)])).
    destruct (hometime_exact ts sp (accE ++ [t1 - t0])) as [out|x]; [|done].
    destruct IH as (ds & -> & IH). exists ((t1 - t0) :: ds).
    rewrite <- !app_assoc in *. done.
Qed.

(** A sum whose terms have one sign and whose exact value is in range
    never wraps. *)
Lemma py_sum_exact (s : Z) ds :
  s = 1 ∨ s = -1 →
  Forall (fun d => 0 ≤ s * d) ds → s * exact_sum ds < 2 ^ 63 →
  py_sum ds = exact_sum ds.
Proof.
  intros Hs Hds Hsum. unfold py_sum.
  assert (G : ∀ a, 0 ≤ s * a → s * (a + exact_sum ds) < 2 ^ 63 →
              foldl (fun a x => int64 (a + x)) a ds = a + exact_sum ds).
  { clear Hsum. induction Hds as [|x ds Hx Hds IH]; intros a Ha Hb.
    - unfold exact_sum. simpl. lia.
    - rewrite exact_sum_cons in Hb |- *. cbn [foldl].
      assert (0 ≤ s * exact_sum ds).
      { apply (exact_sum_sign (fun d => 0 ≤ s * d)); [lia | intros; lia | done]. }
      rewrite int64_small by (destruct Hs; subst s; lia).
      rewrite IH; [lia | lia | lia]. }
  rewrite G; [lia | lia | lia].
Qed.

(** *** The estimator *)

Lemma location_duration_spans (df : list labelled) c :
  let idx := flatnonzero (np_ne
      (removelast (np_r_ false (map (fun r : labelled => r.2 =? c) (reverse df)) false))
      (drop 1 (np_r_ false (map (fun r : labelled => r.2 =? c) (reverse df)) false))) in
  Forall (fun p => 0 ≤ p.1 ≤ p.2 ∧ p.2 < Z.of_nat (length (reverse df))) (spans idx).
Proof.
  intros idx. apply spans_ordered.
  - apply flatnonzero_from_sorted.
  - apply Forall_forall. intros x Hx. apply flatnonzero_from_bounds in Hx.
    unfold np_ne, np_r_ in Hx. rewrite length_zip_with in Hx.
    change (false :: ?m ++ [false]) with ((false :: m) ++ [false]) in Hx.
    rewrite removelast_last, length_drop in Hx.
    rewrite !length_cons, !length_app, !length_cons in Hx.
    rewrite !length_fmap, !length_reverse in Hx.
    rewrite length_reverse. lia.
Qed.

(** Every index the estimator reads is in range: it returns. *)
Lemma location_duration_returns df c : ∃ d, _location_duration df c = Ok d.
Proof.
  unfold _location_duration. cbv zeta.
  pose proof (location_duration_spans df c) as Hsp. simpl in Hsp.
  destruct (hometime_exact_sign (fun _ => True) (fun _ _ => True)
    (timestamps (reverse df))
    (spans (flatnonzero (np_ne
      (removelast (np_r_ false (map (fun r : labelled => r.2 =? c) (reverse df)) false))
      (drop 1 (np_r_ false (map (fun r : labelled => r.2 =? c) (reverse df)) false)))))
    []) as (ds & Hds & _); [done | done | | constructor |].
  - unfold timestamps. rewrite length_fmap. exact Hsp.
  - pose proof (hometime_int64 (timestamps (reverse df))
      (spans (flatnonzero (np_ne
        (removelast (np_r_ false (map (fun r : labelled => r.2 =? c) (reverse df)) false))
        (drop 1 (np_r_ false (map (fun r : labelled => r.2 =? c) (reverse df)) false)))))
      [] []) as Hw.
    rewrite Hds in Hw. destruct Hw as (ds' & _ & Hw).
    unfold spans in Hw. rewrite Hw. cbn [mbind result_bind]. eauto.
Qed.

Lemma epoch_ms_bounds ts t : epoch_ms ts = true → t ∈ ts → 0 ≤ t < 2 ^ 63.
Proof.
  unfold epoch_ms. rewrite forallb_forall. intros H Ht.
  apply list_elem_of_In, H, andb_prop in Ht as [H0 H1]. lia.
Qed.

Lemma timestamps_reverse df : timestamps (reverse df) = reverse (timestamps df).
Proof. unfold timestamps. apply fmap_reverse. Qed.

(** On a frame of epoch timestamps whose reversal is monotone the
    estimator's arithmetic never wraps, and the total has the sign of
    the order and is bounded by the time span of the frame. *)
Lemma location_duration_frame (s : Z) (df : list labelled) c :
  s = 1 ∨ s = -1 →
  epoch_ms (timestamps df) = true →
  mono (fun a b => s * a ≤ s * b) (timestamps (reverse df)) →
  ∃ d, _location_duration df c = Ok d ∧
       0 ≤ s * d ≤ s * (default 0 (head (timestamps df))
                        - default 0 (last (timestamps df))).
Proof.
  intros Hs Hms Hmono.
  destruct df as [|r0 df]; [exists 0; split; [reflexivity | simpl; lia]|].
  assert (Hlast : last (timestamps (reverse (r0 :: df))) = Some (timestamp r0.1)).
  { rewrite timestamps_reverse. simpl. by rewrite reverse_cons, last_snoc. }
  destruct (last (timestamps (r0 :: df))) as [tn|] eqn:Hl;
    [|by apply last_None in Hl].
  assert (H0 : timestamps (reverse (r0 :: df)) !! 0%nat = Some tn).
  { rewrite timestamps_reverse, reverse_lookup by (simpl; lia).
    rewrite last_lookup in Hl. simpl length in *.
    replace (S (length (timestamps df)) - 1)%nat
      with (Init.Nat.pred (S (length (timestamps df)))) by lia.
    exact Hl. }
  assert (Hb0 : 0 ≤ timestamp r0.1 < 2 ^ 63).
  { apply (epoch_ms_bounds _ _ Hms). simpl. left. }
  assert (Hbn : 0 ≤ tn < 2 ^ 63).
  { apply (epoch_ms_bounds _ _ Hms). rewrite last_lookup in Hl.
    by apply list_elem_of_lookup_2 in Hl. }
  pose proof (location_duration_spans (r0 :: df) c) as Hsp.
  cbv zeta in Hsp.
  set (idx := flatnonzero _) in Hsp.
  destruct (hometime_exact_bounded s _ _ Hs Hmono Hlast (length idx) idx [] 0%nat tn)
    as (ds & Hds & Hall & Hsum); [lia | apply flatnonzero_from_sorted | | done |].
  { apply Forall_forall. intros x Hx. subst idx.
    apply flatnonzero_from_bounds in Hx.
    unfold np_ne, np_r_ in Hx. rewrite length_zip_with in Hx.
    change (false :: ?m ++ [false]) with ((false :: m) ++ [false]) in Hx.
    rewrite removelast_last, length_drop in Hx.
    rewrite !length_cons, !length_app, !length_cons in Hx.
    rewrite !length_fmap in Hx.
    unfold timestamps. rewrite length_fmap. lia. }
  pose proof (hometime_int64 (timestamps (reverse (r0 :: df))) (spans idx) [] [])
    as Hw.
  rewrite Hds in Hw. destruct Hw as (ds' & Hds' & Hw).
  simpl in Hds'. subst ds'.
  assert (Hrange : s * (timestamp r0.1 - tn) < 2 ^ 63)
    by (destruct Hs; subst s; lia).
  assert (Hid : map int64 ds = ds).
  { clear Hw Hds Hsum. induction Hall as [|d ds Hd _ IH]; [done|].
    cbn [map]. rewrite IH. f_equal. apply int64_small.
    destruct Hs; subst s; lia. }
  exists (exact_sum ds). split; [|simpl; lia].
  unfold _location_duration. cbv zeta. fold idx.
  unfold spans in Hw. rewrite Hw. cbn [mbind result_bind app]. rewrite Hid.
  f_equal. apply (py_sum_exact s); [done | | lia].
  eapply Forall_impl; [exact Hall|]. intros d Hd. simpl in Hd. lia.
Qed.

Lemma location_duration_absent df c :
  forallb (fun l => negb (l =? c)) (labels df) = true →
  _location_duration df c = Ok 0.
Proof.
  intros H. unfold _location_duration. cbv zeta.
  assert (Hmask : Forall (fun b => b = false)
            (map (fun r : labelled => r.2 =? c) (reverse df))).
  { apply Forall_forall. intros b Hb. apply list_elem_of_fmap in Hb as (r & -> & Hr).
    rewrite elem_of_reverse in Hr.
    rewrite forallb_forall in H. specialize (H r.2).
    apply negb_true_iff, H. apply list_elem_of_In. unfold labels.
    apply list_elem_of_fmap. eauto. }
  assert (Hidx : flatnonzero (np_ne
      (removelast (np_r_ false (map (fun r : labelled => r.2 =? c) (reverse df)) false))
      (drop 1 (np_r_ false (map (fun r : labelled => r.2 =? c) (reverse df)) false))) = []).
  { apply flatnonzero_from_all_false. unfold np_ne, np_r_.
    change (false :: ?m ++ [false]) with ((false :: m) ++ [false]).
    rewrite removelast_last. simpl. rewrite drop_0.
    revert Hmask. generalize (map (fun r : labelled => r.2 =? c) (reverse df)).
    intros m Hm.
    induction Hm as [|b m Hb _ IH]; simpl.
    - by constructor.
    - subst b. by constructor. }
  rewrite Hidx. reflexivity.
Qed.

(** C1, as the claim states it, fails: two readings of one location in
    ascending time order give a negative total, because the estimator
    reverses the frame and then subtracts the timestamp at the start of a
    run from the one at its end. *)
Lemma location_duration_ascending_negative :
  let df := [(mk_reading 0 37 (-122), 0); (mk_reading 1000 37 (-122), 0)] in
  ascending (timestamps df) = true ∧
  _location_duration df 0 = Ok (-1000) ∧
  ¬ (∃ d, _location_duration df 0 = Ok d ∧ 0 ≤ d).
Proof.
  cbv zeta. split; [reflexivity|]. split; [reflexivity|].
  intros (d & Hd & Hpos). vm_compute in Hd. injection Hd as <-. lia.
Qed.

(** C1 (amended): the timestamps are [int64] values and their differences
    and sums wrap around, so the frame is taken with epoch timestamps
    (not negative, below 2^63).  On such a frame in descending order
    (newest reading first, which the estimator's reversal turns into
    ascending order) the dwell duration is returned and is non-negative;
    on such a frame in ascending order it is returned and is never
    positive; and whatever the timestamps and their order, it is exactly
    0 when no reading carries the target label. *)
Theorem location_duration_sign_by_order (df : list labelled) (cluster : Z) :
  (epoch_ms (timestamps df) = true → descending (timestamps df) = true →
     ∃ d, _location_duration df cluster = Ok d ∧ 0 ≤ d) ∧
  (epoch_ms (timestamps df) = true → ascending (timestamps df) = true →
     ∃ d, _location_duration df cluster = Ok d ∧ d ≤ 0) ∧
  (forallb (fun l => negb (l =? cluster)) (labels df) = true →
     _location_duration df cluster = Ok 0).
Proof.
  split; [|split].
  - intros Hms H.
    destruct (location_duration_frame 1 df cluster) as (d & Hd & Hsign);
      [by left | done | | exists d; split; [done | lia]].
    rewrite timestamps_reverse.
    apply descending_rev, ascending_mono in H.
    intros i j a b Hij Hi Hj. specialize (H i j a b Hij Hi Hj). lia.
  - intros Hms H.
    destruct (location_duration_frame (-1) df cluster) as (d & Hd & Hsign);
      [by right | done | | exists d; split; [done | lia]].
    rewrite timestamps_reverse.
    apply ascending_rev, descending_mono in H.
    intros i j a b Hij Hi Hj. specialize (H i j a b Hij Hi Hj). lia.
  - apply location_duration_absent.
Qed.

Lemma location_duration_sign_by_order_witness :
  (∃ d, _location_duration
          [(mk_reading 5000 37 (-122), 1); (mk_reading 1000 37 (-122), 0);
           (mk_reading 0 37 (-122), 0)] 0 = Ok d ∧ 0 ≤ d) ∧
  (∃ d, _location_duration
          [(mk_reading 0 37 (-122), 0); (mk_reading 1000 37 (-122), 0)] 0
        = Ok d ∧ d ≤ 0) ∧
  _location_duration
    [(mk_reading 0 37 (-122), 1); (mk_reading 1000 37 (-122), 2)] 0 = Ok 0.
Proof.
  split; [|split].
  - apply (location_duration_sign_by_order
             [(mk_reading 5000 37 (-122), 1); (mk_reading 1000 37 (-122), 0);
              (mk_reading 0 37 (-122), 0)] 0); reflexivity.
  - apply (location_duration_sign_by_order
             [(mk_reading 0 37 (-122), 0); (mk_reading 1000 37 (-122), 0)] 0);
      reflexivity.
  - apply (location_duration_sign_by_order
             [(mk_reading 0 37 (-122), 1); (mk_reading 1000 37 (-122), 2)] 0).
    reflexivity.
Defined.

End DwellDuration.

(** ** Proximity merge *)

Lemma Qltb_lt (x y : Q) : Qltb x y = true ↔ (x < y)%Q.
Proof.
  unfold Qltb. rewrite negb_true_iff. split.
  - intros E. apply Qnot_le_lt. intros Hle.
    apply Qle_bool_iff in Hle. congruence.
  - intros Hlt. destruct (Qle_bool y x) eqn:E; [|done].
    apply Qle_bool_iff in E. exfalso. by apply (Qlt_not_le x y).
Qed.

Lemma Qltb_ge (x y : Q) : Qltb x y = false ↔ (y <= x)%Q.
Proof.
  unfold Qltb. rewrite negb_false_iff. apply Qle_bool_iff.
Qed.

(** The fields of a location that the merge never writes. *)
Definition place (c : location) : Z * Z * Q * Q * option Q :=
  (loc_start c, loc_end c, loc_latitude c, loc_longitude c, radius c).

Definition Qsum (l : list Q) : Q := foldr Qplus 0%Q l.
Definition Zsum (l : list Z) : Z := foldr Z.add 0 l.

(** Sum of [proportion] and of [duration] over a list of locations. *)
Definition total_proportion (l : list location) : Q := Qsum (map proportion l).
Definition total_duration (l : list location) : Z := Zsum (map duration l).

Lemma alter_middle {A} (f : A → A) (pre : list A) x post :
  alter f (length pre) (pre ++ x :: post) = pre ++ f x :: post.
Proof.
  rewrite <- (Nat.add_0_r (length pre)) at 1. by rewrite alter_app_r.
Qed.

Lemma Forall2_map_eq {A B} (f : A → B) (l1 l2 : list A) :
  Forall2 (fun a b => f a = f b) l1 l2 → map f l1 = map f l2.
Proof. induction 1 as [|a b l1 l2 Hab _ IH]; simpl; [done|]. by rewrite Hab, IH. Qed.

Section ProximityMergeProofs.
Context `{Numeric}.
Variable MAX_DIST : Q.

(** [near ll c]: the location [c] is within the merge distance of the
    coordinates [ll]. *)
Definition near (ll : Q * Q) (c : location) : bool :=
  Qltb (distance ll (latlon c)) MAX_DIST.

(** What a scan from [ll] leaves of a later location. *)
Definition dim (ll : Q * Q) (c : location) : location :=
  if near ll c then set_proportion 0 c else c.

(** What a scan from [ll] makes of the scanning location. *)
Fixpoint absorb (ll : Q * Q) (big : location) (rest : list location)
    : location :=
  match rest with
  | [] => big
  | r :: rest' =>
      absorb ll
        (if near ll r
         then set_duration (duration big + duration r)
                (set_proportion (proportion big + proportion r) big)
         else big)
        rest'
  end.

Lemma merge_pair_middle ll pre big seen r rest :
  merge_pair MAX_DIST ll (length pre) (length pre + 1 + length seen)
    (pre ++ big :: seen ++ r :: rest)
  = pre ++ (if near ll r
            then set_duration (duration big + duration r)
                   (set_proportion (proportion big + proportion r) big)
            else big)
        :: seen ++ dim ll r :: rest.
Proof.
  assert (Hj : ∀ b x, (pre ++ b :: seen ++ x :: rest)
                        !! (length pre + 1 + length seen)%nat = Some x).
  { intros b x. rewrite lookup_app_r by lia.
    replace (length pre + 1 + length seen - length pre)%nat
      with (S (length seen)) by lia.
    simpl. by rewrite list_lookup_middle. }
  assert (Hja : ∀ f b x, alter f (length pre + 1 + length seen)%nat
                  (pre ++ b :: seen ++ x :: rest)
                = pre ++ b :: seen ++ f x :: rest).
  { intros f b x. rewrite alter_app_r_alt by lia.
    replace (length pre + 1 + length seen - length pre)%nat
      with (length (b :: seen)) by (simpl; lia).
    change (b :: seen ++ x :: rest) with ((b :: seen) ++ x :: rest).
    by rewrite alter_middle. }
  unfold merge_pair, dim. rewrite Hj. fold (near ll r).
  destruct (near ll r); [|done].
  cbv zeta. rewrite alter_middle, Hja, Hj, alter_middle. done.
Qed.

Lemma merge_inner_spec ll pre rest : ∀ big seen,
  foldl (fun cl j => merge_pair MAX_DIST ll (length pre) j cl)
    (pre ++ big :: seen ++ rest)
    (seq (length pre + 1 + length seen) (length rest))
  = pre ++ absorb ll big rest :: seen ++ map (dim ll) rest.
Proof.
  induction rest as [|r rest IH]; intros big seen; [done|].
  simpl. rewrite merge_pair_middle.
  replace (S (length pre + 1 + length seen))
    with (length pre + 1 + length (seen ++ [dim ll r]))%nat
    by (rewrite length_app; simpl; lia).
  replace (seen ++ dim ll r :: rest) with ((seen ++ [dim ll r]) ++ rest)
    by (by rewrite <- app_assoc).
  rewrite IH. by rewrite <- app_assoc.
Qed.

Lemma merge_from_spec clusters i big :
  clusters !! i = Some big →
  merge_from MAX_DIST (length clusters) i clusters
  = if Qltb 0 (proportion big)
    then take i clusters
           ++ absorb (latlon big) big (drop (S i) clusters)
           :: map (dim (latlon big)) (drop (S i) clusters)
    else clusters.
Proof.
  intros Hi. unfold merge_from. rewrite Hi. cbv zeta.
  destruct (Qltb 0 (proportion big)); [|done].
  pose proof (lookup_lt_Some _ _ _ Hi) as Hlt.
  pose proof (merge_inner_spec (latlon big) (take i clusters)
                (drop (S i) clusters) big []) as Hspec.
  simpl in Hspec. rewrite take_drop_middle in Hspec by done.
  rewrite length_take, length_drop in Hspec.
  replace (i `min` length clusters + 1 + 0)%nat with (i + 1)%nat in Hspec by lia.
  replace (i `min` length clusters)%nat with i in Hspec by lia.
  replace (length clusters - S i)%nat with (length clusters - (i + 1))%nat
    in Hspec by lia.
  exact Hspec.
Qed.

Lemma merge_from_out clusters n i :
  clusters !! i = None → merge_from MAX_DIST n i clusters = clusters.
Proof. intros Hi. unfold merge_from. by rewrite Hi. Qed.

Lemma merge_upto_S clusters k :
  merge_upto MAX_DIST clusters (S k)
  = merge_from MAX_DIST (length clusters) k (merge_upto MAX_DIST clusters k).
Proof. unfold merge_upto. cbv zeta. by rewrite seq_S, foldl_app. Qed.

(** *** What a scan does to the fields *)

Lemma absorb_fields ll rest : ∀ big,
  place (absorb ll big rest) = place big ∧
  rank (absorb ll big rest) = rank big ∧
  duration (absorb ll big rest)
    = duration big + total_duration (List.filter (near ll) rest) ∧
  (proportion (absorb ll big rest)
    == proportion big + total_proportion (List.filter (near ll) rest))%Q.
Proof.
  unfold total_duration, total_proportion.
  induction rest as [|r rest IH]; intros big; simpl.
  - repeat split; [lia | ring].
  - destruct (IH (if near ll r
         then set_duration (duration big + duration r)
                (set_proportion (proportion big + proportion r) big)
         else big)) as (Hp & Hr & Hd & Hq).
    rewrite Hp, Hr, Hd, Hq. destruct (near ll r); simpl.
    + repeat split; [lia | ring].
    + done.
Qed.

Lemma dim_fields ll c :
  place (dim ll c) = place c ∧ rank (dim ll c) = rank c ∧
  duration (dim ll c) = duration c ∧ latlon (dim ll c) = latlon c.
Proof. unfold dim. by destruct (near ll c). Qed.

Lemma dim_total ll rest :
  (total_proportion (map (dim ll) rest)
   + total_proportion (List.filter (near ll) rest)
   == total_proportion rest)%Q.
Proof.
  unfold total_proportion. induction rest as [|r rest IH]; simpl; [ring|].
  unfold dim at 1. destruct (near ll r); simpl; rewrite <- IH; ring.
Qed.

Lemma total_proportion_app l1 l2 :
  (total_proportion (l1 ++ l2) == total_proportion l1 + total_proportion l2)%Q.
Proof.
  unfold total_proportion. induction l1 as [|x l1 IH]; simpl; [ring|].
  rewrite IH. ring.
Qed.

Lemma total_proportion_cons x l :
  (total_proportion (x :: l) == proportion x + total_proportion l)%Q.
Proof. reflexivity. Qed.

Definition nonneg (c : location) : Prop := (0 <= proportion c)%Q.

Lemma total_proportion_nonneg l :
  Forall nonneg l → (0 <= total_proportion l)%Q.
Proof.
  unfold total_proportion.
  induction 1 as [|x l Hx _ IH]; simpl; [apply Qle_refl|].
  unfold nonneg in Hx. lra.
Qed.

(** *** One outer iteration keeps the length, the places, the total
    proportion and the sign of the proportions *)

Lemma merge_from_length clusters n i :
  length (merge_from MAX_DIST n i clusters) = length clusters.
Proof.
  unfold merge_from. destruct (clusters !! i) as [ci|]; [|done]. cbv zeta.
  destruct (Qltb 0 (proportion ci)); [|done].
  generalize (seq (i + 1) (n - (i + 1))). intros js. revert clusters.
  induction js as [|j js IH]; intros clusters; [done|].
  simpl. rewrite IH. unfold merge_pair.
  destruct (clusters !! j) as [cj|]; [|done].
  destruct (Qltb _ _); [|done]. cbv zeta.
  destruct (_ !! j); by rewrite ?length_alter.
Qed.

Lemma merge_from_place clusters i :
  map place (merge_from MAX_DIST (length clusters) i clusters)
  = map place clusters.
Proof.
  destruct (clusters !! i) as [big|] eqn:Hi; [|by rewrite merge_from_out].
  rewrite (merge_from_spec _ _ _ Hi).
  destruct (Qltb 0 (proportion big)); [|done].
  transitivity (map place (take i clusters ++ big :: drop (S i) clusters));
    [|by rewrite take_drop_middle].
  rewrite !map_app. simpl. rewrite map_map.
  f_equal. f_equal; [apply absorb_fields|].
  apply map_ext. intros c. apply dim_fields.
Qed.

Lemma merge_from_total clusters i :
  (total_proportion (merge_from MAX_DIST (length clusters) i clusters)
   == total_proportion clusters)%Q.
Proof.
  destruct (clusters !! i) as [big|] eqn:Hi;
    [|rewrite merge_from_out by done; reflexivity].
  rewrite (merge_from_spec _ _ _ Hi).
  destruct (Qltb 0 (proportion big)); [|reflexivity].
  transitivity (total_proportion (take i clusters ++ big :: drop (S i) clusters));
    [|by rewrite take_drop_middle].
  rewrite !total_proportion_app, !total_proportion_cons.
  destruct (absorb_fields (latlon big) (drop (S i) clusters) big)
    as (_ & _ & _ & Hq).
  rewrite Hq. rewrite <- (dim_total (latlon big) (drop (S i) clusters)). ring.
Qed.

Lemma merge_from_nonneg clusters i :
  Forall nonneg clusters →
  Forall nonneg (merge_from MAX_DIST (length clusters) i clusters).
Proof.
  intros Hall.
  destruct (clusters !! i) as [big|] eqn:Hi; [|by rewrite merge_from_out].
  rewrite (merge_from_spec _ _ _ Hi).
  destruct (Qltb 0 (proportion big)); [|done].
  rewrite <- (take_drop_middle _ _ _ Hi) in Hall.
  apply Forall_app in Hall as [Hpre Hrest].
  apply Forall_cons in Hrest as [Hbig Hrest].
  apply Forall_app. split; [done|]. constructor.
  - unfold nonneg.
    destruct (absorb_fields (latlon big) (drop (S i) clusters) big)
      as (_ & _ & _ & Hq).
    rewrite Hq.
    assert (0 <= total_proportion
                   (List.filter (near (latlon big)) (drop (S i) clusters)))%Q.
    { apply total_proportion_nonneg. apply Forall_forall. intros c Hc.
      apply list_elem_of_In, filter_In in Hc as [Hc _].
      rewrite Forall_forall in Hrest. apply Hrest. by apply list_elem_of_In. }
    unfold nonneg in Hbig. lra.
  - apply Forall_fmap. eapply Forall_impl; [exact Hrest|].
    intros c Hc. unfold nonneg, dim in *. simpl.
    destruct (near (latlon big) c); simpl; [apply Qle_refl | done].
Qed.

(** Invariants of the outer loop. *)
Lemma merge_upto_invariant (P : list location → Prop) clusters :
  P clusters →
  (∀ s i, length s = length clusters → P s →
          P (merge_from MAX_DIST (length s) i s)) →
  ∀ k, P (merge_upto MAX_DIST clusters k) ∧
       length (merge_upto MAX_DIST clusters k) = length clusters.
Proof.
  intros H0 Hstep. induction k as [|k [IHP IHl]]; [done|].
  rewrite merge_upto_S. split.
  - rewrite <- IHl at 1. by apply Hstep.
  - by rewrite merge_from_length.
Qed.

Lemma merge_scan_invariant (P : list location → Prop) clusters :
  P clusters →
  (∀ s i, length s = length clusters → P s →
          P (merge_from MAX_DIST (length s) i s)) →
  P (merge_scan MAX_DIST clusters).
Proof.
  intros H0 Hstep.
  by destruct (merge_upto_invariant P clusters H0 Hstep (length clusters - 1)).
Qed.

(** *** The filter and the re-ranking *)

Lemma filter_sublist {A} (f : A → bool) (l : list A) :
  List.filter f l `sublist_of` l.
Proof.
  induction l as [|x l IH]; simpl; [constructor|].
  destruct (f x); by constructor.
Qed.

Lemma total_proportion_filter l :
  Forall nonneg l →
  (total_proportion (List.filter (fun cl => Qltb 0 (proportion cl)) l)
   == total_proportion l)%Q.
Proof.
  induction 1 as [|x l Hx _ IH]; simpl; [reflexivity|].
  destruct (Qltb 0 (proportion x)) eqn:E.
  - rewrite !total_proportion_cons, IH. reflexivity.
  - rewrite total_proportion_cons, IH. apply Qltb_ge in E.
    unfold nonneg in Hx. lra.
Qed.

Lemma rerank_fields (l : list location) : ∀ (f : nat → Z),
  Forall2 (fun o c => place o = place c ∧ proportion o = proportion c
                      ∧ duration o = duration c)
          (imap (fun i cl => set_rank (f i) cl) l) l.
Proof.
  induction l as [|c l IH]; intros f; simpl; constructor; [done|].
  apply (IH (f ∘ S)).
Qed.

Lemma rerank_ranks (l : list location) : ∀ k,
  map rank (imap (fun i cl => set_rank (Z.of_nat (k + i)) cl) l)
  = map Z.of_nat (seq k (length l)).
Proof.
  induction l as [|c l IH]; intros k; simpl; [done|].
  rewrite Nat.add_0_r. f_equal. rewrite <- (IH (S k)).
  f_equal. apply imap_ext. intros i x _. simpl. do 2 f_equal. lia.
Qed.

(** C4 (amended): when the proportions of the input are not negative
    and the additions of the merge are exact (the proportions read as
    rationals), the proximity merge conserves the total proportion,
    whatever the merge distance: the floating-point totals of the input
    and of the output differ by the rounding of the additions only. *)
Theorem remove_clusters_conserves_proportion (clusters : list location) :
  forallb (fun c => Qle_bool 0 (proportion c)) clusters = true →
  (total_proportion (remove_clusters clusters MAX_DIST)
   == total_proportion clusters)%Q.
Proof.
  intros Hnn.
  assert (Hall : Forall nonneg clusters).
  { apply Forall_forall. intros c Hc. rewrite forallb_forall in Hnn.
    apply Qle_bool_iff, Hnn. by apply list_elem_of_In. }
  destruct (merge_scan_invariant
              (fun s => Forall nonneg s ∧
                        (total_proportion s == total_proportion clusters)%Q)
              clusters) as [Hs Ht].
  - split; [done | reflexivity].
  - intros s i _ [Hs Ht]. split; [by apply merge_from_nonneg|].
    by rewrite merge_from_total.
  - unfold remove_clusters. cbv zeta.
    rewrite <- Ht, <- (total_proportion_filter _ Hs).
    unfold total_proportion.
    replace (map proportion (imap _ _)) with
      (map proportion
           (List.filter (fun cl => Qltb 0 (proportion cl))
                        (merge_scan MAX_DIST clusters))); [reflexivity|].
    symmetry. apply Forall2_map_eq.
    eapply Forall2_impl; [apply (rerank_fields _ Z.of_nat)|].
    by intros o c (_ & Hp & _).
Qed.

(** C8: the list the proximity merge returns holds the survivors in the
    order they had in its input (their places form a sublist of the
    input's places, and their proportions and durations are the ones
    the scan left, in scan order: nothing is sorted again), and their
    ranks are 0, 1, 2, ... in that order. *)
Theorem remove_clusters_order_and_ranks (clusters : list location) :
  let out := remove_clusters clusters MAX_DIST in
  map place out `sublist_of` map place clusters ∧
  Forall2 (fun o c => place o = place c ∧ proportion o = proportion c
                      ∧ duration o = duration c)
          out
          (List.filter (fun cl => Qltb 0 (proportion cl))
                       (merge_scan MAX_DIST clusters)) ∧
  map rank out = map Z.of_nat (seq 0 (length out)).
Proof.
  cbv zeta. unfold remove_clusters. cbv zeta.
  pose proof (rerank_fields
    (List.filter (fun cl => Qltb 0 (proportion cl))
                 (merge_scan MAX_DIST clusters)) Z.of_nat) as HF.
  split; [|split].
  - assert (Hpl : map place (merge_scan MAX_DIST clusters) = map place clusters).
    { apply (merge_scan_invariant (fun s => map place s = map place clusters));
        [done|].
      intros s i _ Hs. by rewrite merge_from_place. }
    rewrite <- Hpl.
    transitivity (map place (List.filter (fun cl => Qltb 0 (proportion cl))
                                         (merge_scan MAX_DIST clusters))).
    + apply (reflexive_eq (R := sublist)). apply Forall2_map_eq.
      eapply Forall2_impl; [exact HF|]. by intros o c (Hp & _).
    + apply (fmap_sublist place), filter_sublist.
  - exact HF.
  - rewrite length_imap. apply (rerank_ranks _ 0).
Qed.

(** *** Lookups after one outer iteration *)

Lemma merge_from_lookup_lt s i k :
  (k < i)%nat → merge_from MAX_DIST (length s) i s !! k = s !! k.
Proof.
  intros Hk. destruct (s !! i) as [big|] eqn:Hi; [|by rewrite merge_from_out].
  rewrite (merge_from_spec _ _ _ Hi).
  destruct (Qltb 0 (proportion big)); [|done].
  pose proof (lookup_lt_Some _ _ _ Hi).
  rewrite lookup_app_l by (rewrite length_take; lia).
  by apply lookup_take_lt.
Qed.

Lemma merge_from_lookup_eq s i big :
  s !! i = Some big →
  merge_from MAX_DIST (length s) i s !! i
  = Some (if Qltb 0 (proportion big)
          then absorb (latlon big) big (drop (S i) s) else big).
Proof.
  intros Hi. rewrite (merge_from_spec _ _ _ Hi).
  destruct (Qltb 0 (proportion big)); [|done].
  pose proof (lookup_lt_Some _ _ _ Hi).
  apply list_lookup_middle. rewrite length_take. lia.
Qed.

Lemma merge_from_lookup_gt s i k big :
  s !! i = Some big → (i < k)%nat →
  merge_from MAX_DIST (length s) i s !! k
  = (if Qltb 0 (proportion big) then dim (latlon big) <$> s !! k else s !! k).
Proof.
  intros Hi Hk. rewrite (merge_from_spec _ _ _ Hi).
  destruct (Qltb 0 (proportion big)); [|done].
  pose proof (lookup_lt_Some _ _ _ Hi).
  rewrite lookup_app_r by (rewrite length_take; lia).
  rewrite length_take.
  replace (k - i `min` length s)%nat with (S (k - S i)) by lia.
  simpl. rewrite list_lookup_fmap, lookup_drop. do 2 f_equal. lia.
Qed.

Lemma merge_upto_length clusters k :
  length (merge_upto MAX_DIST clusters k) = length clusters.
Proof. by destruct (merge_upto_invariant (fun _ => True) clusters I (fun _ _ _ _ => I) k). Qed.

(** Once an outer iteration is over, its location is final. *)
Lemma merge_upto_final clusters k i :
  (k < i)%nat →
  merge_upto MAX_DIST clusters i !! k
  = merge_upto MAX_DIST clusters (S k) !! k.
Proof.
  induction i as [|i IH]; intros Hk; [lia|].
  destruct (decide (k = i)) as [->|Hne]; [done|].
  rewrite merge_upto_S, <- (merge_upto_length clusters i).
  rewrite merge_from_lookup_lt by lia. apply IH. lia.
Qed.

(** *** What the scans leave of the locations not yet scanned *)

Definition zeroed (c : location) : location := set_proportion 0 c.

(** [scanned_positive clusters i]: location [i] has a positive
    proportion when the outer loop reaches it. *)
Definition scanned_positive (clusters : list location) (i : nat) : bool :=
  match merge_upto MAX_DIST clusters i !! i with
  | Some ci => Qltb 0 (proportion ci)
  | None => false
  end.


Lemma dim_cases ll c x :
  x = c ∨ x = zeroed c → dim ll x = c ∨ dim ll x = zeroed c.
Proof.
  unfold dim, near. intros [->| ->]; simpl.
  - destruct (Qltb _ _); auto.
  - destruct (Qltb _ _); auto.
Qed.

Lemma merge_upto_pending clusters : ∀ i k c,
  clusters !! k = Some c → (i ≤ k)%nat →
  merge_upto MAX_DIST clusters i !! k = Some c ∨
  merge_upto MAX_DIST clusters i !! k = Some (zeroed c).
Proof.
  induction i as [|i IH]; intros k c Hk Hik; [by left|].
  rewrite merge_upto_S, <- (merge_upto_length clusters i).
  destruct (lookup_lt_is_Some_2 (merge_upto MAX_DIST clusters i) i) as [x Hx].
  { rewrite merge_upto_length. apply lookup_lt_Some in Hk. lia. }
  rewrite (merge_from_lookup_gt _ _ _ _ Hx) by lia.
  destruct (IH k c Hk ltac:(lia)) as [E|E]; rewrite E;
    destruct (Qltb 0 (proportion x)); simpl; auto.
  - destruct (dim_cases (latlon x) c c) as [-> | ->]; auto.
  - destruct (dim_cases (latlon x) c (zeroed c)) as [-> | ->]; auto.
Qed.

Lemma merge_upto_scanning clusters i ci :
  clusters !! i = Some ci → scanned_positive clusters i = true →
  merge_upto MAX_DIST clusters i !! i = Some ci.
Proof.
  intros Hi Hpos. unfold scanned_positive in Hpos.
  destruct (merge_upto_pending clusters i i ci Hi (Nat.le_refl i)) as [E|E];
    rewrite E in Hpos |- *; [done|].
  simpl in Hpos. exfalso. apply Qltb_lt in Hpos. by apply (Qlt_irrefl 0).
Qed.



(** A location within the merge distance of a scanning location has
    proportion 0, and its own duration, for every later scan. *)
Lemma merge_upto_absorbed clusters i1 j a c :
  clusters !! i1 = Some a → clusters !! j = Some c →
  scanned_positive clusters i1 = true → near (latlon a) c = true →
  ∀ i2, (i1 < i2)%nat → (i2 ≤ j)%nat →
  merge_upto MAX_DIST clusters i2 !! j = Some (zeroed c).
Proof.
  intros Hi1 Hj Hpos Hnear.
  assert (Hdz : ∀ ll, dim ll (zeroed c) = zeroed c).
  { intros ll. unfold dim. by destruct (near ll (zeroed c)). }
  induction i2 as [|i2 IH]; intros H1 H2; [lia|].
  rewrite merge_upto_S, <- (merge_upto_length clusters i2).
  destruct (lookup_lt_is_Some_2 (merge_upto MAX_DIST clusters i2) i2) as [x Hx].
  { rewrite merge_upto_length. apply lookup_lt_Some in Hj. lia. }
  rewrite (merge_from_lookup_gt _ _ _ _ Hx) by lia.
  destruct (decide (i2 = i1)) as [->|Hne].
  - rewrite (merge_upto_scanning _ _ _ Hi1 Hpos) in Hx. injection Hx as <-.
    unfold scanned_positive in Hpos.
    rewrite (merge_upto_scanning _ _ _ Hi1 Hpos) in Hpos. rewrite Hpos.
    destruct (merge_upto_pending clusters i1 j c Hj ltac:(lia)) as [-> | ->];
      simpl; [|by rewrite Hdz].
    unfold dim. by rewrite Hnear.
  - rewrite IH by lia. simpl. rewrite Hdz. by destruct (Qltb 0 _).
Qed.




End ProximityMergeProofs.

Lemma remove_clusters_conserves_proportion_witness :
  (total_proportion
     (@remove_clusters sample_numeric
        [mk_location 0 10 0 0 0 None (1 # 2) 5;
         mk_location 0 10 0 (1 # 250) 1 None (1 # 4) 7;
         mk_location 0 10 0 (1 # 500) 2 None (1 # 4) 11] 300)
   == total_proportion
        [mk_location 0 10 0 0 0 None (1 # 2) 5;
         mk_location 0 10 0 (1 # 250) 1 None (1 # 4) 7;
         mk_location 0 10 0 (1 # 500) 2 None (1 # 4) 11])%Q.
Proof.
  apply (@remove_clusters_conserves_proportion sample_numeric 300). reflexivity.
Defined.

(** C4, as the claim states it, fails twice.  In binary64 the merge of
    the third location (proportion 1/6) into the first (3/6) rounds, and
    the total of the output is 1 where the total of the input is the
    float below 1.  And a location with a negative proportion absorbs
    nothing, is absorbed by nothing that is far from it, and is dropped
    by the filter with its proportion, so that the totals differ even in
    exact arithmetic. *)
Lemma remove_clusters_changes_total :
  let a := mk_location64 0 10 0 0 0 None (3 / 6)%float 5 in
  let b := mk_location64 0 10 1 0 1 None (2 / 6)%float 7 in
  let c := mk_location64 0 10 0 0 2 None (1 / 6)%float 11 in
  let out := @remove_clusters64 sample_numeric [a; b; c] 300 in
  let x := mk_location 0 10 0 0 0 None (1 # 2) 5 in
  let y := mk_location 0 10 1 0 1 None (-1 # 4) 7 in
  map proportion64 out = [(3 / 6 + 1 / 6)%float; (2 / 6)%float] ∧
  sum64 (map proportion64 out) = 1%float ∧
  PrimFloat.ltb (sum64 (map proportion64 [a; b; c])) 1%float = true ∧
  PrimFloat.eqb (sum64 (map proportion64 out))
                (sum64 (map proportion64 [a; b; c])) = false ∧
  map proportion (@remove_clusters sample_numeric [x; y] 300) = [1 # 2] ∧
  ¬ (total_proportion (@remove_clusters sample_numeric [x; y] 300)
     == total_proportion [x; y])%Q.
Proof.
  cbv zeta. repeat split; try (vm_compute; reflexivity).
  vm_compute. discriminate.
Qed.

(** The survivors are not sorted again: the second location absorbs the
    third and ends with the larger proportion, yet keeps rank 1. *)
Example remove_clusters_not_resorted :
  map (fun c => (rank c, Qred (proportion c)))
      (@remove_clusters sample_numeric
         [mk_location 0 10 0 0 0 None (3 # 10) 5;
          mk_location 0 10 1 0 1 None (1 # 4) 7;
          mk_location 0 10 1 0 2 None (9 # 20) 11] 300)
  = [(0, 3 # 10); (1, 7 # 10)].
Proof. vm_compute. reflexivity. Qed.


(** ** Candidate cluster counts *)

Lemma range_spec a b k : k ∈ range a b ↔ a ≤ k < b.
Proof.
  unfold range. rewrite list_elem_of_fmap. split.
  - intros (i & -> & Hi). apply elem_of_seq in Hi. lia.
  - intros Hk. exists (Z.to_nat (k - a)). split; [lia|].
    apply elem_of_seq. lia.
Qed.

(** The candidates of line 187 stop one short of [k_max]. *)
Lemma K_clusters_spec k_max pointcount k :
  k ∈ K_clusters k_max pointcount ↔ 1 ≤ k ≤ Z.min (k_max - 1) (pointcount - 1).
Proof. unfold K_clusters. rewrite range_spec. lia. Qed.

(** C7 at [k_max = 10] with a cloud of 100 points: the claim's candidates
    are 1..10, the fitted and scored ones are 1..9. *)
Theorem K_clusters_misses_k_max :
  1 ≤ 10 ≤ Z.min 10 (100 - 1) ∧
  K_clusters 10 100 = [1; 2; 3; 4; 5; 6; 7; 8; 9] ∧
  10 ∉ K_clusters 10 100.
Proof.
  split; [lia|]. split; [reflexivity|].
  rewrite K_clusters_spec. lia.
Qed.

(** ** Incremental reducer: snapping a cluster to a summary point *)

Lemma argmin_from_spec l : ∀ best v i,
  let r := argmin_from best v i l in
  (r = best ∨ ∃ x, l !! (r - i)%nat = Some x ∧ (i ≤ r)%nat ∧ (x < v)%Q) ∧
  (∀ w, (r = best → w = v) →
        (∀ x, (i ≤ r)%nat → l !! (r - i)%nat = Some x → w = x) →
        (w <= v)%Q ∧ ∀ j x, l !! j = Some x → (w <= x)%Q).
Proof.
  induction l as [|y l IH]; intros best v i; simpl.
  - split; [by left|]. intros w Hb _. rewrite (Hb eq_refl).
    split; [apply Qle_refl|]. intros j x Hj. by rewrite lookup_nil in Hj.
  - destruct (Qltb y v) eqn:E.
    + apply Qltb_lt in E.
      destruct (IH i y (S i)) as [Hr Hmin]. simpl in Hr, Hmin. split.
      * right. destruct Hr as [->|(x & Hx & Hle & Hlt)].
        -- exists y. rewrite Nat.sub_diag. repeat split; [lia|done].
        -- exists x. replace (argmin_from i y (S i) l - i)%nat
             with (S (argmin_from i y (S i) l - S i)) by lia.
           repeat split; [done|lia|lra].
      * intros w Hb Hx.
        destruct (Hmin w) as [Hwy Hall].
        -- intros Hri. apply Hx; [lia|]. by rewrite Hri, Nat.sub_diag.
        -- intros x Hle Hl. apply Hx; [lia|].
           replace (argmin_from i y (S i) l - i)%nat
             with (S (argmin_from i y (S i) l - S i)) by lia.
           done.
        -- split; [lra|]. intros [|j] x Hj; simpl in Hj.
           ++ injection Hj as <-. done.
           ++ by apply (Hall j).
    + apply Qltb_ge in E.
      destruct (IH best v (S i)) as [Hr Hmin]. simpl in Hr, Hmin. split.
      * destruct Hr as [->|(x & Hx & Hle & Hlt)]; [by left|right].
        exists x. replace (argmin_from best v (S i) l - i)%nat
             with (S (argmin_from best v (S i) l - S i)) by lia.
        repeat split; [done|lia|done].
      * intros w Hb Hx.
        destruct (Hmin w) as [Hwy Hall].
        -- done.
        -- intros x Hle Hl. apply Hx; [lia|].
           replace (argmin_from best v (S i) l - i)%nat
             with (S (argmin_from best v (S i) l - S i)) by lia.
           done.
        -- split; [done|]. intros [|j] x Hj; simpl in Hj.
           ++ injection Hj as <-. lra.
           ++ by apply (Hall j).
Qed.

(** [np.argmin] returns a position of a least entry. *)
Lemma np_argmin_spec (l : list Q) :
  l ≠ [] →
  ∃ v, l !! np_argmin l = Some v ∧ ∀ j x, l !! j = Some x → (v <= x)%Q.
Proof.
  destruct l as [|x l]; [done|]. intros _. unfold np_argmin.
  destruct (argmin_from_spec l 0%nat x 1%nat) as [Hr Hmin].
  simpl in Hr, Hmin. destruct Hr as [Hr|(y & Hy & Hle & Hlt)].
  - rewrite Hr. exists x. split; [done|].
    destruct (Hmin x) as [_ Hall]; [done | intros; lia |].
    intros [|j] z Hj; simpl in Hj.
    + injection Hj as <-. apply Qle_refl.
    + by apply (Hall j).
  - exists y. split.
    + replace (argmin_from 0 x 1 l) with (S (argmin_from 0 x 1 l - 1)) by lia.
      done.
    + destruct (Hmin y) as [Hyx Hall].
      * intros E. lia.
      * intros z _ Hz. congruence.
      * intros [|j] z Hj; simpl in Hj.
        -- by injection Hj as <-.
        -- by apply (Hall j).
Qed.

Section ReducerProofs.
Context `{Numeric}.

Definition sp_coords (p : summary_point) : Q * Q :=
  (sp_latitude p, sp_longitude p).

(** The distances of line 164. *)
Definition planar_km (centroid : Q * Q) (loc : summary_point) : Q :=
  euclid (sp_coords loc) centroid.

Lemma snap_spec data new_reduced_data db_points lat_mean long_mean size :
  data ≠ [] →
  ∃ i nearest,
    data !! i = Some nearest ∧
    (∀ j loc, data !! j = Some loc →
       (planar_km (lat_mean, long_mean) nearest
        <= planar_km (lat_mean, long_mean) loc)%Q) ∧
    snap data new_reduced_data db_points lat_mean long_mean size
    = if Qltb (planar_km (lat_mean, long_mean) nearest) 20
      then (alter (add_count size) i new_reduced_data, db_points)
      else (new_reduced_data,
            db_points ++ [mk_summary_point lat_mean long_mean size]).
Proof.
  intros Hne. unfold snap.
  destruct (length data =? 0)%nat eqn:El.
  { apply Nat.eqb_eq in El. by destruct data. }
  destruct (np_argmin_spec
              (map (fun loc => euclid (sp_latitude loc, sp_longitude loc)
                                      (lat_mean, long_mean)) data))
    as (v & Hv & Hmin).
  { by destruct data. }
  set (i := np_argmin _) in *.
  rewrite list_lookup_fmap in Hv.
  destruct (data !! i) as [nearest|] eqn:Hi; [|done].
  simpl in Hv. injection Hv as <-.
  exists i, nearest. split; [done|]. split; [|done].
  intros j loc Hj. apply (Hmin j).
  by rewrite list_lookup_fmap, Hj.
Qed.

Lemma alter_add_count_coords size i (l : list summary_point) :
  map sp_coords (alter (add_count size) i l) = map sp_coords l.
Proof.
  revert i. induction l as [|p l IH]; intros [|i]; simpl; [done..| |].
  - done.
  - by rewrite <- (IH i).
Qed.

(** Throughout the loop over the labels of a chunk, [new_reduced_data]
    holds the summary points of [reduced_data['data']], position by
    position, with their coordinates. *)
Lemma label_step_coords data d props st l :
  map sp_coords st.1 = map sp_coords data →
  map sp_coords (label_step data d props st l).1 = map sp_coords data.
Proof.
  destruct st as [new_reduced_data db_points]. simpl. intros Hc.
  destruct (l =? -1); [done|].
  unfold snap. destruct (length data =? 0)%nat; [done|].
  destruct (data !! _); [|done].
  destruct (Qltb _ _); [|done].
  simpl. by rewrite alter_add_count_coords.
Qed.

Lemma label_loop_coords data d props ls : ∀ st,
  map sp_coords st.1 = map sp_coords data →
  map sp_coords (foldl (label_step data d props) st ls).1
  = map sp_coords data.
Proof.
  induction ls as [|l ls IH]; intros st Hc; [done|].
  simpl. apply IH. by apply label_step_coords.
Qed.

(** What lines 157-171 do with a genuine cluster met while summary
    points exist: it is merged into a nearest summary point (nearest by
    the planar approximation) exactly when the value of [euclid], which
    is in kilometers, is below 20; a merge adds the cluster's size to
    that point's count and changes no coordinate and no other point;
    otherwise one summary point with the centroid and the cluster's size
    is appended to the new points. *)
Lemma genuine_cluster_snap (data : list summary_point) (d : list reading)
    (props : list Z) (new_reduced_data db_points : list summary_point) (l : Z) :
  l ≠ -1 → data ≠ [] →
  map sp_coords new_reduced_data = map sp_coords data →
  let cluster := members d props l in
  let centroid :=
    (np_mean (map latitude cluster), np_mean (map longitude cluster)) in
  let size := Z.of_nat (length cluster) in
  ∃ i nearest target,
    data !! i = Some nearest ∧
    new_reduced_data !! i = Some target ∧
    sp_coords target = sp_coords nearest ∧
    (∀ j loc, data !! j = Some loc →
       (planar_km centroid nearest <= planar_km centroid loc)%Q) ∧
    label_step data d props (new_reduced_data, db_points) l
    = if Qltb (planar_km centroid nearest) 20
      then (<[i := mk_summary_point (sp_latitude target) (sp_longitude target)
                     (count target + size)]> new_reduced_data,
            db_points)
      else (new_reduced_data,
            db_points ++ [mk_summary_point centroid.1 centroid.2 size]).
Proof.
  intros Hl Hne Hc cluster centroid size.
  destruct (snap_spec data new_reduced_data db_points
              centroid.1 centroid.2 size Hne)
    as (i & nearest & Hi & Hmin & Hsnap).
  assert (Ht : ∃ target, new_reduced_data !! i = Some target
                         ∧ sp_coords target = sp_coords nearest).
  { assert (E : map sp_coords new_reduced_data !! i = Some (sp_coords nearest)).
    { rewrite Hc, list_lookup_fmap, Hi. done. }
    rewrite list_lookup_fmap in E.
    destruct (new_reduced_data !! i) as [t|]; [|done].
    simpl in E. exists t. split; [done | congruence]. }
  destruct Ht as (target & Ht & Hco).
  exists i, nearest, target. repeat split; [done..|].
  unfold label_step. destruct (l =? -1) eqn:E; [lia|].
  rewrite length_fmap. fold cluster. fold size.
  change (np_mean (map latitude cluster)) with centroid.1.
  change (np_mean (map longitude cluster)) with centroid.2.
  rewrite Hsnap. destruct (Qltb _ _); [|done].
  f_equal. rewrite list_insert_alter.
  apply list_alter_ext; [|done].
  intros x Hx. rewrite Ht in Hx. by injection Hx as <-.
Qed.

End ReducerProofs.

(** A world in which density clustering finds one cluster, labelled 0,
    that holds every point. *)
Definition one_cluster (W : World) : World :=
  mk_World (get_attachment W) (set_attachment W) (gps W)
           (fun _ points => map (fun _ => 0) points)
           (kmeans_score W) (cluster_centers W) (predict W).

(** C2 on five readings at one place, 0.001 degrees of latitude from the
    only summary point: density clustering makes them one genuine
    cluster, whose centroid is 110.25 m from the summary point by the
    planar approximation.  110.25 m is not below 20 m, so by the claim a
    new summary point is appended; the code merges the cluster into the
    existing point, whose count goes from 1 to 6, because it compares
    the value of [euclid], which is in kilometers, with 20. *)
Theorem snap_merges_beyond_20_meters :
  let data := [mk_summary_point 0 0 1] in
  let d := [mk_reading 0 (1 # 1000) 0; mk_reading 1000 (1 # 1000) 0;
            mk_reading 2000 (1 # 1000) 0; mk_reading 3000 (1 # 1000) 0;
            mk_reading 4000 (1 # 1000) 0] in
  let centroid := (np_mean (map latitude d), np_mean (map longitude d)) in
  let planar_meters :=
    (@euclid sample_numeric (0, 0) centroid * 1000)%Q in
  let W := one_cluster (sample_world (Ok (mk_reduced 0 data)) (Ok tt) (Ok d)) in
  (planar_meters == 11025 # 100)%Q ∧
  Qltb planar_meters 20 = false ∧
  fit_predict W (1 # 100000) (coords d) = [0; 0; 0; 0; 0] ∧
  @label_step sample_numeric data d [0; 0; 0; 0; 0] (data, []) 0
  = ([mk_summary_point 0 0 6], []) ∧
  @reduce_chunk sample_numeric W (1 # 100000) (mk_kwargs 7 0 5000)
    (mk_reduced 0 data) d
  = mk_reduced 5000 [mk_summary_point 0 0 6].
Proof. cbv zeta. repeat split; vm_compute; reflexivity. Qed.

Lemma genuine_cluster_snap_at_work :
  let data := [mk_summary_point 0 0 1] in
  let d := [mk_reading 0 (1 # 1000) 0; mk_reading 1000 (1 # 1000) 0;
            mk_reading 2000 (1 # 1000) 0; mk_reading 3000 (1 # 1000) 0;
            mk_reading 4000 (1 # 1000) 0] in
  ∃ i nearest target,
    data !! i = Some nearest ∧
    data !! i = Some target ∧
    sp_coords target = sp_coords nearest ∧
    (∀ j loc, data !! j = Some loc →
       (@planar_km sample_numeric
          (np_mean (map latitude d), np_mean (map longitude d)) nearest
        <= @planar_km sample_numeric
             (np_mean (map latitude d), np_mean (map longitude d)) loc)%Q) ∧
    @label_step sample_numeric data d [0; 0; 0; 0; 0] (data, []) 0
    = if Qltb (@planar_km sample_numeric
                 (np_mean (map latitude d), np_mean (map longitude d))
                 nearest) 20
      then (<[i := mk_summary_point (sp_latitude target) (sp_longitude target)
                     (count target + 5)]> data, [])
      else (data,
            [mk_summary_point (np_mean (map latitude d))
                              (np_mean (map longitude d)) 5]).
Proof.
  exact (@genuine_cluster_snap sample_numeric
           [mk_summary_point 0 0 1]
           [mk_reading 0 (1 # 1000) 0; mk_reading 1000 (1 # 1000) 0;
            mk_reading 2000 (1 # 1000) 0; mk_reading 3000 (1 # 1000) 0;
            mk_reading 4000 (1 # 1000) 0]
           [0; 0; 0; 0; 0] [mk_summary_point 0 0 1] [] 0
           ltac:(lia) ltac:(discriminate) eq_refl).
Defined.

(** ** Density path: the reducer's fetch, chunks and write *)

(** The first row always survives the removal of repeated timestamps, so
    the frame tested in line 136 is never empty; a fetch that returns
    no reading fails before, in line 135. *)
Lemma drop_repeated_timestamps_cons r df :
  ∃ rest, drop_repeated_timestamps (r :: df) = Ok (r :: rest).
Proof. unfold drop_repeated_timestamps. simpl. eauto. Qed.

Lemma drop_repeated_timestamps_nil :
  drop_repeated_timestamps [] = Raise KeyError.
Proof. reflexivity. Qed.

Lemma drop_repeated_timestamps_nonempty _gps df :
  drop_repeated_timestamps _gps = Ok df → _gps ≠ [] ∧ df ≠ [].
Proof.
  destruct _gps as [|r rest]; [done|].
  destruct (drop_repeated_timestamps_cons r rest) as [ys ->].
  intros [= <-]. done.
Qed.

Lemma np_split_from_concat {A} (df : list A) indices : ∀ prev,
  StronglySorted le (prev :: indices) →
  concat (np_split_from prev indices df) = drop prev df.
Proof.
  induction indices as [|i indices IH]; intros prev Hs; simpl.
  - apply app_nil_r.
  - apply StronglySorted_inv in Hs as [Hs Hle].
    apply Forall_cons in Hle as [Hle _].
    rewrite (IH i Hs).
    replace (drop i df) with (drop (i - prev) (drop prev df)).
    + apply take_drop.
    + rewrite drop_drop. f_equal. lia.
Qed.

Lemma chunk_indices_sorted m : ∀ a,
  StronglySorted le
    (map (fun i => Z.to_nat (30000 * Z.of_nat i)) (seq a m)).
Proof.
  induction m as [|m IH]; intros a; simpl; constructor; [apply IH|].
  apply Forall_forall. intros x Hx.
  apply list_elem_of_fmap in Hx as (i & -> & Hi).
  apply elem_of_seq in Hi. lia.
Qed.

Lemma cut_concat df : concat (cut df) = df.
Proof.
  unfold cut, np_split. rewrite np_split_from_concat; [done|].
  constructor; [apply chunk_indices_sorted|].
  apply Forall_forall. intros x _. lia.
Qed.

Lemma cut_has_rows df :
  df ≠ [] → Exists (fun d => d ≠ []) (cut df).
Proof.
  intros Hne. rewrite <- (cut_concat df) in Hne.
  induction (cut df) as [|d chunks IH]; [done|].
  destruct d as [|r d]; [|by left].
  right. by apply IH.
Qed.

Section DensityProofs.
Context `{Numeric}.
Variables (W : World) (k_max : Z) (eps : Q) (kw : kwargs).

Lemma reduce_chunk_end reduced_data d :
  d ≠ [] → r_end (reduce_chunk W eps kw reduced_data d) = kw_end kw.
Proof.
  intros Hd. unfold reduce_chunk. destruct d; [done|]. simpl length.
  cbv zeta. simpl. by destruct (foldl _ _ _).
Qed.

Lemma reduce_chunk_keeps_end reduced_data d :
  r_end reduced_data = kw_end kw →
  r_end (reduce_chunk W eps kw reduced_data d) = kw_end kw.
Proof.
  intros He. destruct d as [|r d]; [done|]. by apply reduce_chunk_end.
Qed.

Lemma reduce_chunks_end chunks : ∀ reduced_data,
  Exists (fun d => d ≠ []) chunks →
  r_end (foldl (reduce_chunk W eps kw) reduced_data chunks) = kw_end kw.
Proof.
  assert (Hkeep : ∀ chunks reduced_data,
            r_end reduced_data = kw_end kw →
            r_end (foldl (reduce_chunk W eps kw) reduced_data chunks)
            = kw_end kw).
  { induction chunks0 as [|d chunks0 IH]; intros r Hr; [done|].
    simpl. apply IH. by apply reduce_chunk_keeps_end. }
  induction chunks as [|d chunks IH]; intros r Hex.
  - by apply Exists_nil in Hex.
  - simpl. destruct d as [|x d].
    + apply Exists_cons in Hex as [Hd|Hex]; [done|]. by apply IH.
    + apply Hkeep. by apply reduce_chunk_end.
Qed.

(** The reducer, branch by branch. *)
Lemma reduce_cases reduced_data log :
  reduce W eps kw reduced_data log
  = if r_end reduced_data <? kw_end kw then
      match gps W (kw_id kw) (r_end reduced_data) (kw_end kw) with
      | Raise e => (Raise e, log)
      | Ok [] => (Raise KeyError, log)
      | Ok (r :: rest) =>
          match drop_repeated_timestamps (r :: rest) with
          | Raise e => (Raise e, log)
          | Ok df =>
              let body := foldl (reduce_chunk W eps kw) reduced_data (cut df) in
              match set_attachment W (kw_id kw) body with
              | Ok _ => (Ok (inl body), log ++ [body])
              | Raise e => (Raise e, log)
              end
          end
      end
    else (Ok (inl reduced_data), log).
Proof.
  unfold reduce. cbv zeta.
  destruct (r_end reduced_data <? kw_end kw); [|done].
  unfold io_bind, lift, io_ret, write_attachment.
  destruct (gps W _ _ _) as [[|r rest]|e]; [done| |done].
  destruct (drop_repeated_timestamps_cons r rest) as [ys ->]. simpl.
  by destruct (set_attachment W _ _).
Qed.

Lemma extract_log reduced_data log :
  (extract W k_max kw reduced_data log).2 = log.
Proof.
  unfold extract, io_bind, lift, io_ret. cbv zeta.
  destruct (flat_map _ _); [done|].
  destruct (elbow _ _); [|done].
  destruct (gps W _ _ _); [|done].
  by destruct (length _ =? 0)%nat.
Qed.

Lemma kmeans_written :
  (_significant_locations_kmeans W k_max eps kw []).2
  = (reduce W eps kw (load W kw) []).2.
Proof.
  unfold _significant_locations_kmeans, io_bind.
  destruct (reduce W eps kw (load W kw) []) as [[[r|early]|e] log]; try done.
  apply extract_log.
Qed.

(** The world in which the store answers [stored] to every read. *)
Definition answering (stored : result reduced) : World :=
  mk_World (fun _ => stored) (set_attachment W) (gps W) (fit_predict W)
           (kmeans_score W) (cluster_centers W) (predict W).

Lemma reduce_answering stored reduced_data log :
  reduce (answering stored) eps kw reduced_data log
  = reduce W eps kw reduced_data log.
Proof. reflexivity. Qed.

(** What is written when: nothing at or past the requested end; at most
    one state, which carries the requested end as its watermark. *)
Lemma reduce_writes :
  let loaded := load W kw in
  let written := (_significant_locations_kmeans W k_max eps kw []).2 in
  (kw_end kw ≤ r_end loaded → written = []) ∧
  (∀ body, body ∈ written →
     r_end body = kw_end kw ∧ r_end loaded < r_end body) ∧
  (length written ≤ 1)%nat ∧
  (∀ _gps, r_end loaded < kw_end kw →
     gps W (kw_id kw) (r_end loaded) (kw_end kw) = Ok _gps → _gps ≠ [] →
     (∀ body, set_attachment W (kw_id kw) body = Ok tt) →
     ∃ body, written = [body] ∧ r_end body = kw_end kw).
Proof.
  cbv zeta. rewrite kmeans_written, reduce_cases.
  assert (Hnone : ∀ P : Prop, P →
    (kw_end kw ≤ r_end (load W kw) → @nil reduced = []) ∧
    (∀ body, body ∈ @nil reduced →
       r_end body = kw_end kw ∧ r_end (load W kw) < r_end body) ∧
    (length (@nil reduced) ≤ 1)%nat ∧ P).
  { intros P HP. split; [done|]. split; [intros b Hb; inversion Hb|].
    split; [simpl; lia | exact HP]. }
  destruct (r_end (load W kw) <? kw_end kw) eqn:E.
  - apply Z.ltb_lt in E.
    destruct (gps W _ _ _) as [[|r rest]|e] eqn:Eg; cbn [snd].
    + apply Hnone. by intros _gps _ [= <-].
    + destruct (drop_repeated_timestamps (r :: rest)) as [df|e] eqn:Ed;
        cbn [snd].
      * apply drop_repeated_timestamps_nonempty in Ed as [_ Hdf].
        pose proof (reduce_chunks_end (cut df) (load W kw)
                      (cut_has_rows df Hdf)) as Hend.
        cbv zeta.
        destruct (set_attachment W _ _) eqn:Es; cbn [snd app].
        -- split; [lia|]. split.
           { intros b Hb. apply list_elem_of_singleton in Hb as ->.
             rewrite Hend. split; [done | lia]. }
           split; [simpl; lia|]. intros _gps _ _ _ _. eauto.
        -- apply Hnone. intros _gps _ _ _ Hset.
           rewrite Hset in Es. discriminate.
      * destruct (drop_repeated_timestamps_cons r rest) as [ys Hys].
        rewrite Hys in Ed. discriminate.
    + apply Hnone. intros _gps _ Hg. discriminate.
  - apply Z.ltb_ge in E. cbn [snd]. apply Hnone. intros _gps Hlt. lia.
Qed.

(** What the store holds after an invocation: the last body written, or
    what it held before when nothing was written. *)
Definition persisted_after (before : reduced) (written : list reduced)
    : reduced :=
  default before (last written).

(** C6 (amended): the property holds of the state the invocation loads,
    which is the persisted state when the read of the attachment
    succeeds and the empty default when it raises.  With [loaded] that
    state: when its watermark is at or past the requested end nothing is
    written; whatever is written carries the requested end as its
    watermark, which is then above the loaded one; when the fetch for
    [watermark, end) brings readings and the store accepts the write,
    exactly that one state is written; and the watermark the store holds
    after the invocation is not below the loaded one. *)
Theorem watermark_advances_to_requested_end :
  let loaded := load W kw in
  let written := (_significant_locations_kmeans W k_max eps kw []).2 in
  (kw_end kw ≤ r_end loaded → written = []) ∧
  (∀ body, body ∈ written →
     r_end body = kw_end kw ∧ r_end loaded < r_end body) ∧
  (length written ≤ 1)%nat ∧
  (∀ _gps, r_end loaded < kw_end kw →
     gps W (kw_id kw) (r_end loaded) (kw_end kw) = Ok _gps → _gps ≠ [] →
     (∀ body, set_attachment W (kw_id kw) body = Ok tt) →
     ∃ body, written = [body] ∧ r_end body = kw_end kw) ∧
  r_end loaded ≤ r_end (persisted_after loaded written).
Proof.
  pose proof reduce_writes as Hw. cbv zeta in Hw |- *.
  destruct Hw as (H1 & H2 & H3 & H4).
  split; [done|]. split; [done|]. split; [done|]. split; [done|].
  unfold persisted_after.
  destruct ((_significant_locations_kmeans W k_max eps kw []).2)
    as [|b [|b' l]]; [simpl; lia | | simpl in H3; lia].
  simpl. destruct (H2 b); [left | lia].
Qed.

(** No result comes out of an invocation whose window fetch fails. *)
Lemma extract_window_failure reduced_data log e :
  gps W (kw_id kw) (kw_start kw) (kw_end kw) = Raise e →
  ∃ e', (extract W k_max kw reduced_data log).1 = Raise e'.
Proof.
  intros Hg. unfold extract, io_bind, lift, io_ret. cbv zeta.
  destruct (flat_map _ _); [by eexists|].
  destruct (elbow _ _); [|by eexists].
  rewrite Hg. by eexists.
Qed.

(** C5 (amended): an exception of the attachment read is caught, and the
    invocation goes on from the empty default state; an exception of
    the GPS source or of the attachment write is the invocation's
    outcome, with nothing written, when it comes from the reducer's
    fetch or from the write, and leaves no result when it comes from the
    window fetch; and the state is written at most once, as it stands
    after the fold over all the chunks of the call. *)
Theorem collaborator_failures :
  let loaded := load W kw in
  let run := _significant_locations_kmeans W k_max eps kw [] in
  (∀ e, get_attachment W (kw_id kw) = Raise e →
     run = _significant_locations_kmeans (answering (Ok (mk_reduced 0 [])))
             k_max eps kw []) ∧
  (∀ e, r_end loaded < kw_end kw →
     gps W (kw_id kw) (r_end loaded) (kw_end kw) = Raise e →
     run = (Raise e, [])) ∧
  (∀ e _gps, r_end loaded < kw_end kw →
     gps W (kw_id kw) (r_end loaded) (kw_end kw) = Ok _gps → _gps ≠ [] →
     (∀ body, set_attachment W (kw_id kw) body = Raise e) →
     run = (Raise e, [])) ∧
  (∀ e, gps W (kw_id kw) (kw_start kw) (kw_end kw) = Raise e →
     ∃ e', run.1 = Raise e') ∧
  (run.2 = [] ∨
   ∃ _gps df,
     gps W (kw_id kw) (r_end loaded) (kw_end kw) = Ok _gps ∧
     drop_repeated_timestamps _gps = Ok df ∧
     run.2 = [foldl (reduce_chunk W eps kw) loaded (cut df)]).
Proof.
  cbv zeta. split; [|split; [|split; [|split]]].
  - intros e He. unfold _significant_locations_kmeans, load. simpl.
    by rewrite He.
  - intros e Hlt Hg. unfold _significant_locations_kmeans, io_bind.
    rewrite reduce_cases. apply Z.ltb_lt in Hlt. by rewrite Hlt, Hg.
  - intros e _gps Hlt Hg Hne Hset.
    unfold _significant_locations_kmeans, io_bind.
    rewrite reduce_cases. apply Z.ltb_lt in Hlt. rewrite Hlt, Hg.
    destruct _gps as [|r rest]; [done|].
    destruct (drop_repeated_timestamps_cons r rest) as [ys ->].
    cbv zeta. by rewrite Hset.
  - intros e Hg. unfold _significant_locations_kmeans, io_bind.
    rewrite reduce_cases.
    destruct (r_end (load W kw) <? kw_end kw).
    + destruct (gps W (kw_id kw) (r_end (load W kw)) (kw_end kw))
        as [[|r rest]|e1]; [by eexists | | by eexists].
      destruct (drop_repeated_timestamps_cons r rest) as [ys ->]. cbv zeta.
      destruct (set_attachment W _ _); [|by eexists].
      by apply (extract_window_failure _ _ e).
    + by apply (extract_window_failure _ _ e).
  - rewrite kmeans_written, reduce_cases.
    destruct (r_end (load W kw) <? kw_end kw); [|by left].
    destruct (gps W _ _ _) as [[|r rest]|e1]; [by left | | by left].
    destruct (drop_repeated_timestamps (r :: rest)) as [df|e1] eqn:Ed;
      [|by left].
    cbv zeta. destruct (set_attachment W _ _); [|by left].
    right. by exists (r :: rest), df.
Qed.

(** An empty fetch for [watermark, end) ends the invocation with
    [KeyError] and nothing written. *)
Lemma empty_fetch_raises :
  r_end (load W kw) < kw_end kw →
  gps W (kw_id kw) (r_end (load W kw)) (kw_end kw) = Ok [] →
  _significant_locations_kmeans W k_max eps kw [] = (Raise KeyError, []).
Proof.
  intros Hlt Hg. unfold _significant_locations_kmeans, io_bind.
  rewrite reduce_cases. apply Z.ltb_lt in Hlt. by rewrite Hlt, Hg.
Qed.

End DensityProofs.

(** C6, as the claim states it, fails: the store holds a state whose
    watermark 5000 is past the requested end 2000, but the read of the
    attachment raises; the invocation starts again from the empty
    default, fetches from 0, and overwrites the persisted state with one
    whose watermark is 2000. *)
Lemma failed_read_lowers_watermark :
  let before := mk_reduced 5000 [mk_summary_point 0 0 2] in
  let W := sample_world (Raise (Failure 1)) (Ok tt)
                        (Ok [mk_reading 0 0 0; mk_reading 1000 0 0]) in
  let kw := mk_kwargs 7 0 2000 in
  let written :=
    (@_significant_locations_kmeans sample_numeric W 10 (1 # 100000) kw []).2 in
  kw_end kw ≤ r_end before ∧
  get_attachment W (kw_id kw) = Raise (Failure 1) ∧
  written
  = [mk_reduced 2000 [mk_summary_point 0 0 1; mk_summary_point 0 0 1]] ∧
  persisted_after before written ≠ before ∧
  r_end (persisted_after before written) < r_end before.
Proof.
  cbv zeta. split; [simpl; lia|]. split; [reflexivity|].
  split; [vm_compute; reflexivity|].
  split; [vm_compute; discriminate | vm_compute; reflexivity].
Qed.

(** C6 (amended) at work: a loaded state whose watermark is past the
    requested end is left alone; a state at watermark 0 with two new
    readings is written once, with the requested end. *)
Lemma watermark_advances_to_requested_end_witness :
  (@_significant_locations_kmeans sample_numeric
     (sample_world (Ok (mk_reduced 5000 [mk_summary_point 0 0 2])) (Ok tt)
                   (Ok [mk_reading 0 0 0; mk_reading 1000 0 0]))
     10 (1 # 100000) (mk_kwargs 7 0 2000) []).2 = [] ∧
  (r_end (mk_reduced 2000 [mk_summary_point 0 0 1; mk_summary_point 0 0 1])
   = 2000 ∧
   0 < r_end (mk_reduced 2000
                [mk_summary_point 0 0 1; mk_summary_point 0 0 1])) ∧
  (∃ body,
     (@_significant_locations_kmeans sample_numeric
        (sample_world (Ok (mk_reduced 0 [])) (Ok tt)
                      (Ok [mk_reading 0 0 0; mk_reading 1000 0 0]))
        10 (1 # 100000) (mk_kwargs 7 0 2000) []).2 = [body]
     ∧ r_end body = 2000).
Proof.
  pose proof (@watermark_advances_to_requested_end sample_numeric
                (sample_world (Ok (mk_reduced 5000 [mk_summary_point 0 0 2]))
                   (Ok tt) (Ok [mk_reading 0 0 0; mk_reading 1000 0 0]))
                10 (1 # 100000) (mk_kwargs 7 0 2000)) as T1.
  pose proof (@watermark_advances_to_requested_end sample_numeric
                (sample_world (Ok (mk_reduced 0 [])) (Ok tt)
                   (Ok [mk_reading 0 0 0; mk_reading 1000 0 0]))
                10 (1 # 100000) (mk_kwargs 7 0 2000)) as T2.
  cbv zeta in T1, T2.
  destruct T1 as (Hkeep & _). destruct T2 as (_ & Hend & _ & Hnew & _).
  split; [|split].
  - apply Hkeep. simpl. lia.
  - apply Hend. vm_compute. constructor.
  - apply (Hnew [mk_reading 0 0 0; mk_reading 1000 0 0]).
    + simpl. lia.
    + reflexivity.
    + discriminate.
    + reflexivity.
Defined.

(** C5, as the claim states it, fails: the read of the attachment raises,
    and the invocation still returns a location and writes a state
    rebuilt from watermark 0. *)
Lemma attachment_read_failure_is_swallowed :
  let W := sample_world (Raise (Failure 1)) (Ok tt)
                        (Ok [mk_reading 0 0 0; mk_reading 1000 0 0]) in
  let run := @_significant_locations_kmeans sample_numeric W 10 (1 # 100000)
               (mk_kwargs 7 0 2000) [] in
  get_attachment W 7 = Raise (Failure 1) ∧
  (∃ loc, run.1 = Ok [loc]) ∧
  run.1 ≠ Raise (Failure 1) ∧
  run.2 = [mk_reduced 2000 [mk_summary_point 0 0 1; mk_summary_point 0 0 1]].
Proof.
  cbv zeta. split; [reflexivity|]. split; [|split].
  - eexists. vm_compute. reflexivity.
  - vm_compute. discriminate.
  - vm_compute. reflexivity.
Qed.

Lemma collaborator_failures_witness :
  let readings := [mk_reading 0 0 0; mk_reading 1000 0 0] in
  let kw := mk_kwargs 7 0 2000 in
  @_significant_locations_kmeans sample_numeric
    (sample_world (Raise (Failure 1)) (Ok tt) (Ok readings))
    10 (1 # 100000) kw []
  = @_significant_locations_kmeans sample_numeric
      (@answering (sample_world (Raise (Failure 1)) (Ok tt) (Ok readings))
                  (Ok (mk_reduced 0 [])))
      10 (1 # 100000) kw [] ∧
  @_significant_locations_kmeans sample_numeric
    (sample_world (Ok (mk_reduced 0 [])) (Ok tt) (Raise (Failure 2)))
    10 (1 # 100000) kw [] = (Raise (Failure 2), []) ∧
  @_significant_locations_kmeans sample_numeric
    (sample_world (Ok (mk_reduced 0 [])) (Raise (Failure 3)) (Ok readings))
    10 (1 # 100000) kw [] = (Raise (Failure 3), []) ∧
  (∃ e', (@_significant_locations_kmeans sample_numeric
            (sample_world (Ok (mk_reduced 5000 [mk_summary_point 0 0 2]))
                          (Ok tt) (Raise (Failure 2)))
            10 (1 # 100000) kw []).1 = Raise e').
Proof.
  pose proof (@collaborator_failures sample_numeric
                (sample_world (Raise (Failure 1)) (Ok tt)
                   (Ok [mk_reading 0 0 0; mk_reading 1000 0 0]))
                10 (1 # 100000) (mk_kwargs 7 0 2000)) as T1.
  pose proof (@collaborator_failures sample_numeric
                (sample_world (Ok (mk_reduced 0 [])) (Ok tt)
                   (Raise (Failure 2)))
                10 (1 # 100000) (mk_kwargs 7 0 2000)) as T2.
  pose proof (@collaborator_failures sample_numeric
                (sample_world (Ok (mk_reduced 0 [])) (Raise (Failure 3))
                   (Ok [mk_reading 0 0 0; mk_reading 1000 0 0]))
                10 (1 # 100000) (mk_kwargs 7 0 2000)) as T3.
  pose proof (@collaborator_failures sample_numeric
                (sample_world (Ok (mk_reduced 5000 [mk_summary_point 0 0 2]))
                   (Ok tt) (Raise (Failure 2)))
                10 (1 # 100000) (mk_kwargs 7 0 2000)) as T4.
  cbv zeta in T1, T2, T3, T4.
  destruct T1 as (Hread & _). destruct T2 as (_ & Hfetch & _).
  destruct T3 as (_ & _ & Hwrite & _). destruct T4 as (_ & _ & _ & Hwindow & _).
  cbv zeta. split; [|split; [|split]].
  - apply (Hread (Failure 1)). reflexivity.
  - apply Hfetch; [simpl; lia | reflexivity].
  - apply (Hwrite (Failure 3) [mk_reading 0 0 0; mk_reading 1000 0 0]).
    + simpl. lia.
    + reflexivity.
    + discriminate.
    + reflexivity.
  - apply (Hwindow (Failure 2)). reflexivity.
Defined.

(** C9 at a state with watermark 500 and a summary point, a window
    [0, 1000) that holds a reading, and no reading in [500, 1000): the
    invocation raises [KeyError] where the claim has it return the
    empty list. *)
Theorem empty_fetch_raises_KeyError :
  let W := sample_world (Ok (mk_reduced 500 [mk_summary_point 0 0 2]))
                        (Ok tt) (Ok [mk_reading 0 0 0]) in
  let kw := mk_kwargs 7 0 1000 in
  gps W 7 500 1000 = Ok [] ∧
  gps W 7 0 1000 = Ok [mk_reading 0 0 0] ∧
  ∀ (N : Numeric) (k_max : Z) (eps : Q),
    @_significant_locations_kmeans N W k_max eps kw [] = (Raise KeyError, []) ∧
    (@_significant_locations_kmeans N W k_max eps kw []).1 ≠ Ok [].
Proof.
  cbv zeta. split; [reflexivity|]. split; [reflexivity|].
  intros N k_max eps.
  rewrite empty_fetch_raises; [done | simpl; lia | reflexivity].
Qed.

(** ** The radius field of the two extractors *)

Section RadiusProofs.
Context `{Numeric}.

(** Density path: the radius is absent exactly when no window reading
    is assigned to the centroid, and is otherwise the mean planar
    distance, in meters, of the assigned readings to the centroid. *)
Lemma kmeans_record_radius kw newdf props idx center loc :
  kmeans_record kw newdf props idx center = Ok loc →
  let assigned := members (coords newdf) props (Z.of_nat idx) in
  radius loc
  = match assigned with
    | [] => None
    | _ => Some (np_mean (map (fun p => euclid center p * 1000)%Q assigned))
    end.
Proof.
  unfold kmeans_record. cbv zeta.
  destruct (_location_duration _ _) as [d|e]; [|done].
  simpl. intros [= <-]. simpl.
  by destruct (members (coords newdf) props (Z.of_nat idx)).
Qed.

(** Frequency path: the test of line 296 counts the rows that are NOT
    labelled [idx], so the radius is absent exactly when every row is
    assigned to the location. *)
Lemma mode_record_radius kw df df_clusters idx center loc :
  mode_record kw df df_clusters idx center = Ok loc →
  let not_idx :=
    select (map (fun l => negb (l =? Z.of_nat idx)) (labels df_clusters)) df in
  let assigned := members df (labels df_clusters) (Z.of_nat idx) in
  radius loc
  = match not_idx with
    | [] => None
    | _ => Some (np_mean
                   (map (fun r => euclid (center.2, center.1)
                                         (longitude r, latitude r) * 1000)%Q
                        assigned))
    end.
Proof.
  unfold mode_record. cbv zeta.
  destruct (_location_duration _ _) as [d|e]; [|done].
  simpl. intros [= <-]. simpl.
  by destruct (select _ df).
Qed.

End RadiusProofs.

(** C3 on the frequency path, with two readings at one place: both are
    assigned to the only location (its proportion is 2/2), and its
    radius is absent, where the claim has the mean distance of the two
    readings to the centroid. *)
Theorem mode_radius_absent_with_assigned_readings :
  let readings := [mk_reading 0 37 (-122); mk_reading 1000 37 (-122)] in
  let W := sample_world (Ok (mk_reduced 0 [])) (Ok tt) (Ok readings) in
  let kw := mk_kwargs 7 0 2000 in
  ∀ (N : Numeric),
    @_significant_locations_mode N W (-1) (1 # 100) 300 kw []
    = (Ok [mk_location 0 2000 (37000 # 1000) (-122000 # 1000) 0 None
                       (2 # 2) (-1000)], []) ∧
    length (members readings [0; 0] 0) = 2%nat.
Proof. cbv zeta. intros N. split; vm_compute; reflexivity. Qed.

(* ================================================================= *)
(** * Further properties of the code *)

(** ** Dwell-duration estimator: totality and closed forms *)

(** [_location_duration] never raises: every index it reads from the
    timestamp column is in range, whatever the frame and the label. *)
Theorem location_duration_total (df : list labelled) (cluster : Z) :
  ∃ d, _location_duration df cluster = Ok d.
Proof. apply location_duration_returns. Qed.

Lemma single_run_edges m : ∀ k,
  flatnonzero_from k
    (zip_with xorb (replicate (S m) true) (replicate m true ++ [false]))
  = [k + Z.of_nat m].
Proof.
  induction m as [|m IH]; intros k.
  - simpl. f_equal. lia.
  - change (replicate (S (S m)) true) with (true :: replicate (S m) true).
    change (replicate (S m) true ++ [false])
      with (true :: (replicate m true ++ [false])).
    cbn [zip_with xorb flatnonzero_from app].
    rewrite IH. f_equal. lia.
Qed.

(** On a frame of epoch timestamps whose rows all carry the target label
    the estimator returns the timestamp of the first row minus the
    timestamp of the last row (0 on an empty or one-row frame), whatever
    the order of the rows. *)
Theorem location_duration_single_run (df : list labelled) (cluster : Z) :
  epoch_ms (timestamps df) = true →
  forallb (fun l => l =? cluster) (labels df) = true →
  _location_duration df cluster
  = Ok (default 0 (head (timestamps df)) - default 0 (last (timestamps df))).
Proof.
  intros Hms Hall. unfold _location_duration. cbv zeta.
  assert (Hmask : map (fun r : labelled => r.2 =? cluster) (reverse df)
                  = replicate (length df) true).
  { rewrite <- (length_reverse df).
    assert (Hr : Forall (fun r : labelled => (r.2 =? cluster) = true) (reverse df)).
    { apply Forall_forall. intros r Hr. rewrite elem_of_reverse in Hr.
      rewrite forallb_forall in Hall. apply Hall.
      apply list_elem_of_In. unfold labels. apply list_elem_of_fmap. eauto. }
    induction Hr as [|r l Hr _ IH]; simpl; [done|]. by rewrite Hr, IH. }
  rewrite Hmask. unfold np_r_.
  change (false :: ?m ++ [false]) with ((false :: m) ++ [false]).
  rewrite removelast_last. simpl drop. rewrite drop_0.
  destruct df as [|r0 df]; [reflexivity|].
  simpl length.
  change (replicate (S (length df)) true ++ [false])
    with (true :: (replicate (length df) true ++ [false])).
  unfold flatnonzero, np_ne.
  cbn [zip_with xorb flatnonzero_from app].
  rewrite single_run_edges. cbn [removelast drop stride2 map zip zip_with].
  replace (0 + 1 + Z.of_nat (length df) - 1) with (Z.of_nat (length df)) by lia.
  cbn [hometime fst snd].
  assert (Hts : length (timestamps (reverse (r0 :: df))) = S (length df)).
  { unfold timestamps. by rewrite length_fmap, length_reverse. }
  destruct (0 =? Z.of_nat (length df)) eqn:E.
  - apply Z.eqb_eq in E. destruct df; [|simpl in E; lia].
    simpl. f_equal. unfold py_sum. simpl. lia.
  - apply Z.eqb_neq in E. unfold series_get.
    destruct (Z.of_nat (length df) <? 0) eqn:E1; [lia|].
    rewrite timestamps_reverse.
    rewrite Nat2Z.id, !reverse_lookup
      by (unfold timestamps; rewrite length_fmap; simpl; lia).
    unfold timestamps. rewrite length_fmap. simpl length.
    replace (S (length df) - S (length df))%nat with 0%nat by lia.
    change (Z.to_nat 0) with 0%nat.
    replace (S (length df) - 1)%nat with (length df) by lia.
    cbn [map lookup list_lookup mbind result_bind].
    assert (Hlast : ∃ t, map (fun r : labelled => timestamp r.1) df
                           !! (length df - 0 - 1)%nat = Some t
                         ∧ last (timestamp r0.1
                                 :: map (fun r : labelled => timestamp r.1) df)
                           = Some t).
    { destruct (lookup_lt_is_Some_2
                  (map (fun r : labelled => timestamp r.1) df)
                  (length df - 0 - 1)%nat) as [t Ht].
      { rewrite length_fmap. destruct df; simpl in *; lia. }
      exists t. split; [done|].
      rewrite last_lookup. simpl length. rewrite length_fmap. simpl.
      destruct df as [|r1 df]; [simpl in E; lia|].
      simpl. simpl in Ht. by rewrite Nat.sub_0_r in Ht. }
    destruct Hlast as (t & Ht & Hl).
    rewrite Hl. change (0 <? 0) with false. cbn iota.
    assert (Hn : (timestamp r0.1 :: map (fun r : labelled => timestamp r.1) df)
                   !! length df = Some t).
    { destruct (length df) as [|n] eqn:El; [lia|].
      replace (S n - 0 - 1)%nat with n in Ht by lia. exact Ht. }
    rewrite Hn. cbn [mbind result_bind app default head].
    assert (Hb0 : 0 ≤ timestamp r0.1 < 2 ^ 63).
    { apply (epoch_ms_bounds _ _ Hms). simpl. left. }
    assert (Hbt : 0 ≤ t < 2 ^ 63).
    { apply (epoch_ms_bounds _ _ Hms). rewrite last_lookup in Hl.
      by apply list_elem_of_lookup_2 in Hl. }
    unfold py_sum. cbn [foldl]. f_equal.
    rewrite (int64_small (timestamp r0.1 - t)) by lia.
    rewrite int64_small by lia. simpl. lia.
Qed.

Lemma location_duration_single_run_witness :
  _location_duration
    [(mk_reading 5000 37 (-122), 4); (mk_reading 1000 37 (-122), 4);
     (mk_reading 0 37 (-122), 4)] 4
  = Ok (5000 - 0).
Proof.
  apply (location_duration_single_run
           [(mk_reading 5000 37 (-122), 4); (mk_reading 1000 37 (-122), 4);
            (mk_reading 0 37 (-122), 4)] 4); reflexivity.
Defined.

(** On a frame of epoch timestamps in descending time order the dwell
    duration of any label lies between 0 and the time span of the frame
    (first timestamp minus last timestamp). *)
Theorem location_duration_within_span (df : list labelled) (cluster : Z) :
  epoch_ms (timestamps df) = true →
  descending (timestamps df) = true →
  ∃ d, _location_duration df cluster = Ok d ∧
       0 ≤ d ≤ default 0 (head (timestamps df))
               - default 0 (last (timestamps df)).
Proof.
  intros Hms Hdesc.
  destruct (location_duration_frame 1 df cluster) as (d & Hd & Hsign);
    [by left | done | | exists d; split; [done | lia]].
  rewrite timestamps_reverse.
  apply descending_rev, ascending_mono in Hdesc.
  intros i j a b Hij Hi Hj. specialize (Hdesc i j a b Hij Hi Hj). lia.
Qed.

Lemma location_duration_within_span_witness :
  ∃ d, _location_duration
         [(mk_reading 5000 37 (-122), 1); (mk_reading 1000 37 (-122), 0);
          (mk_reading 0 37 (-122), 0)] 0 = Ok d ∧
       0 ≤ d ≤ 5000 - 0.
Proof.
  apply (location_duration_within_span
           [(mk_reading 5000 37 (-122), 1); (mk_reading 1000 37 (-122), 0);
            (mk_reading 0 37 (-122), 0)] 0); reflexivity.
Defined.

(** ** Removal of repeated timestamps *)

(** The rows that [df[df['timestamp'] != df['timestamp'].shift()]] keeps
    after a row with timestamp [prev]. *)
Fixpoint keep_changes (prev : Z) (df : list reading) : list reading :=
  match df with
  | [] => []
  | r :: rest =>
      (if timestamp r =? prev then [] else [r])
        ++ keep_changes (timestamp r) rest
  end.

Lemma select_shift_keep_changes rest : ∀ t,
  select
    (zip_with (fun t prev => match prev with
                             | Some t' => negb (t =? t')
                             | None => true
                             end)
              (map timestamp rest)
              (map Some (removelast (t :: map timestamp rest))))
    rest
  = keep_changes t rest.
Proof.
  induction rest as [|r rest IH]; intros t; [done|].
  change (map timestamp (r :: rest)) with (timestamp r :: map timestamp rest).
  change (removelast (t :: timestamp r :: map timestamp rest))
    with (t :: removelast (timestamp r :: map timestamp rest)).
  cbn [map zip_with select keep_changes]. rewrite IH.
  by destruct (timestamp r =? t).
Qed.

Lemma drop_repeated_timestamps_keep_changes r rest :
  drop_repeated_timestamps (r :: rest)
  = Ok (r :: keep_changes (timestamp r) rest).
Proof.
  unfold drop_repeated_timestamps, column, shift.
  cbn [map mbind result_bind zip_with select app].
  by rewrite select_shift_keep_changes.
Qed.

Lemma keep_changes_sublist rest : ∀ t, keep_changes t rest `sublist_of` rest.
Proof.
  induction rest as [|r rest IH]; intros t; simpl; [done|].
  destruct (timestamp r =? t); simpl; by constructor.
Qed.

Lemma keep_changes_sorted rest : ∀ t,
  HdRel (fun a b => a ≠ b) t (map timestamp (keep_changes t rest)) ∧
  Sorted (fun a b => a ≠ b) (map timestamp (keep_changes t rest)).
Proof.
  induction rest as [|r rest IH]; intros t; simpl; [by split; constructor|].
  destruct (timestamp r =? t) eqn:E; simpl.
  - apply Z.eqb_eq in E. rewrite E. apply IH.
  - apply Z.eqb_neq in E. destruct (IH (timestamp r)) as [Hh Hs].
    split; constructor; [congruence | done | done].
Qed.

(** On a non-empty frame the removal succeeds, keeps the first row, keeps
    the other rows in their order (a sublist), and leaves no two
    consecutive rows with one timestamp. *)
Theorem drop_repeated_timestamps_spec (r : reading) (rest : list reading) :
  ∃ kept,
    drop_repeated_timestamps (r :: rest) = Ok (r :: kept) ∧
    kept `sublist_of` rest ∧
    Sorted (fun a b => a ≠ b) (map timestamp (r :: kept)).
Proof.
  exists (keep_changes (timestamp r) rest).
  split; [apply drop_repeated_timestamps_keep_changes|].
  split; [apply keep_changes_sublist|].
  destruct (keep_changes_sorted rest (timestamp r)) as [Hh Hs].
  simpl. by constructor.
Qed.

(** ** Chunks of the reducer *)

Lemma np_split_chunks_bounded {A} (df : list A) m : ∀ a prev,
  30000 * Z.of_nat a ≤ Z.of_nat prev + 30000 →
  Z.of_nat (length df) ≤ 30000 * Z.of_nat (a + m) →
  Forall (fun d => Z.of_nat (length d) ≤ 30000)
    (np_split_from prev
       (map (fun i => Z.to_nat (30000 * Z.of_nat i)) (seq a m)) df).
Proof.
  induction m as [|m IH]; intros a prev H1 H2; simpl.
  - constructor; [|constructor]. rewrite length_drop. lia.
  - constructor.
    + rewrite length_take, length_drop. lia.
    + apply IH; lia.
Qed.

(** The chunks of line 139 are consecutive stretches of the frame that
    put together give the frame back, and none holds more than 30000
    rows. *)
Theorem cut_partition (df : list reading) :
  concat (cut df) = df ∧
  Forall (fun d => Z.of_nat (length d) ≤ 30000) (cut df).
Proof.
  split; [apply cut_concat|].
  unfold cut, np_split. apply np_split_chunks_bounded; [lia|].
  unfold ceil_div. simpl.
  pose proof (Z.div_mod (Z.of_nat (length df) + (30000 - 1)) 30000 ltac:(lia)).
  pose proof (Z.mod_pos_bound (Z.of_nat (length df) + (30000 - 1)) 30000
                ltac:(lia)).
  assert (0 ≤ (Z.of_nat (length df) + (30000 - 1)) / 30000)
    by (apply Z.div_pos; lia).
  lia.
Qed.

(** ** Incremental reducer: what a reduction does to the summary *)

Definition total_count (l : list summary_point) : Z := Zsum (map count l).

Lemma total_count_app l1 l2 :
  total_count (l1 ++ l2) = total_count l1 + total_count l2.
Proof.
  unfold total_count, Zsum. induction l1 as [|p l1 IH]; simpl; [done|].
  rewrite IH. lia.
Qed.

Lemma total_count_alter n i l :
  (i < length l)%nat →
  total_count (alter (add_count n) i l) = total_count l + n.
Proof.
  unfold total_count, Zsum, alter. revert i.
  induction l as [|p l IH]; intros [|i] Hi; simpl in *; try lia.
  rewrite IH by lia. lia.
Qed.

Lemma insert_unique_elem x l y :
  y ∈ insert_unique x l ↔ y = x ∨ y ∈ l.
Proof.
  induction l as [|z l IH]; simpl.
  - rewrite list_elem_of_singleton, elem_of_nil. tauto.
  - destruct (x <? z) eqn:E1; [by rewrite (elem_of_cons (z :: l))|].
    destruct (x =? z) eqn:E2.
    + apply Z.eqb_eq in E2. subst. rewrite elem_of_cons. tauto.
    + rewrite !elem_of_cons, IH. tauto.
Qed.

Lemma insert_unique_sorted x l :
  StronglySorted Z.lt l → StronglySorted Z.lt (insert_unique x l).
Proof.
  induction 1 as [|z l Hs IH Hz]; simpl; [repeat constructor|].
  destruct (x <? z) eqn:E1.
  - apply Z.ltb_lt in E1. constructor; [by constructor|].
    constructor; [done|]. eapply Forall_impl; [exact Hz|]. simpl. lia.
  - destruct (x =? z) eqn:E2; [by constructor|].
    apply Z.ltb_ge in E1. apply Z.eqb_neq in E2.
    constructor; [done|]. apply Forall_forall. intros y Hy.
    apply insert_unique_elem in Hy as [->|Hy]; [lia|].
    rewrite Forall_forall in Hz. by apply Hz.
Qed.

(** [np.unique] gives each label of [props] once. *)
Lemma np_unique_spec props :
  StronglySorted Z.lt (np_unique props) ∧
  ∀ x, x ∈ np_unique props ↔ x ∈ props.
Proof.
  unfold np_unique. induction props as [|p props [IHs IHe]]; simpl.
  - split; [constructor | done].
  - split; [by apply insert_unique_sorted|].
    intros x. rewrite insert_unique_elem, IHe, elem_of_cons. tauto.
Qed.

Lemma members_cons {A} (x : A) d p ps l :
  members (x :: d) (p :: ps) l
  = (if p =? l then [x] else []) ++ members d ps l.
Proof. reflexivity. Qed.

Lemma hit_once U : StronglySorted Z.lt U → ∀ p, p ∈ U →
  Zsum (map (fun l => if p =? l then 1 else 0) U) = 1.
Proof.
  unfold Zsum. induction 1 as [|z U Hs IH Hz]; intros p Hp; [inversion Hp|].
  simpl. apply elem_of_cons in Hp as [->|Hp].
  - rewrite Z.eqb_refl.
    assert (foldr Z.add 0 (map (fun l => if z =? l then 1 else 0) U) = 0);
      [|lia].
    clear IH Hs. induction Hz as [|y U Hy _ IH]; simpl; [done|].
    destruct (z =? y) eqn:E; [apply Z.eqb_eq in E; lia|]. by rewrite IH.
  - rewrite (IH p Hp). rewrite Forall_forall in Hz. specialize (Hz p Hp).
    destruct (p =? z) eqn:E; [apply Z.eqb_eq in E; lia | lia].
Qed.

(** The labels' member lists split the rows of a chunk. *)
Lemma members_partition {A} U : StronglySorted Z.lt U →
  ∀ (d : list A) props, length props = length d → Forall (fun p => p ∈ U) props →
  Zsum (map (fun l => Z.of_nat (length (members d props l))) U)
  = Z.of_nat (length d).
Proof.
  intros HU. induction d as [|x d IH]; intros [|p ps] Hlen Hin;
    simpl in Hlen; try lia.
  - clear. unfold Zsum. induction U as [|u U IHU]; [done|].
    simpl in *. exact IHU.
  - apply Forall_cons in Hin as [Hp Hin].
    specialize (IH ps ltac:(lia) Hin).
    pose proof (hit_once U HU p Hp) as H1.
    simpl length. rewrite Nat2Z.inj_succ, <- IH, <- Z.add_1_l, <- H1.
    clear. unfold Zsum. induction U as [|l U IHU]; simpl; [done|].
    rewrite members_cons, length_app, IHU.
    destruct (p =? l); simpl; lia.
Qed.

Section ReductionProofs.
Context `{Numeric}.
Variables (W : World) (eps : Q) (kw : kwargs).

(** [grows new old]: the summary point [new] is [old] with a count that
    is not smaller. *)
Definition grows (new old : summary_point) : Prop :=
  sp_coords new = sp_coords old ∧ count old ≤ count new.

Lemma label_step_total data d props st l :
  length st.1 = length data →
  length (label_step data d props st l).1 = length data ∧
  total_count (label_step data d props st l).1
    + total_count (label_step data d props st l).2
  = total_count st.1 + total_count st.2
    + Z.of_nat (length (members d props l)).
Proof.
  destruct st as [nrd dbp]. simpl. intros Hlen.
  destruct (l =? -1).
  - simpl. split; [done|]. rewrite total_count_app.
    assert (total_count
              (zip_with (fun lat lon => mk_summary_point lat lon 1)
                 (map latitude (members d props l))
                 (map longitude (members d props l)))
            = Z.of_nat (length (members d props l))); [|lia].
    unfold total_count, Zsum.
    induction (members d props l) as [|r ms IH]; simpl; [done|].
    rewrite IH. lia.
  - rewrite length_fmap.
    destruct data as [|p data].
    + simpl. split; [done|]. rewrite total_count_app.
      unfold total_count at 3. simpl. lia.
    + destruct (snap_spec (p :: data) nrd dbp
                  (np_mean (map latitude (members d props l)))
                  (np_mean (map longitude (members d props l)))
                  (Z.of_nat (length (members d props l))))
        as (i & nearest & Hi & _ & ->); [done|].
      destruct (Qltb _ _); simpl.
      * rewrite length_alter. split; [done|].
        rewrite total_count_alter; [lia|].
        rewrite Hlen. by apply lookup_lt_Some in Hi.
      * split; [done|]. rewrite total_count_app.
        unfold total_count at 3. simpl. lia.
Qed.

Lemma label_loop_total data d props ls : ∀ st,
  length st.1 = length data →
  total_count (foldl (label_step data d props) st ls).1
    + total_count (foldl (label_step data d props) st ls).2
  = total_count st.1 + total_count st.2
    + Zsum (map (fun l => Z.of_nat (length (members d props l))) ls).
Proof.
  induction ls as [|l ls IH]; intros st Hlen; simpl; [unfold Zsum; simpl; lia|].
  destruct (label_step_total data d props st l Hlen) as [Hl Ht].
  rewrite (IH _ Hl), Ht. unfold Zsum. simpl. lia.
Qed.

Lemma reduce_chunk_total reduced_data d :
  length (fit_predict W eps (coords d)) = length d →
  total_count (r_data (reduce_chunk W eps kw reduced_data d))
  = total_count (r_data reduced_data) + Z.of_nat (length d).
Proof.
  intros Hfit. unfold reduce_chunk.
  destruct d as [|r d]; [simpl; lia|].
  cbn [length Nat.eqb]. cbv zeta.
  pose proof (label_loop_total (r_data reduced_data) (r :: d)
                (fit_predict W eps (coords (r :: d)))
                (np_unique (fit_predict W eps (coords (r :: d))))
                (r_data reduced_data, []) eq_refl) as Ht.
  destruct (foldl _ _ _) as [nrd dbp]. simpl in Ht |- *.
  rewrite total_count_app, Ht.
  destruct (np_unique_spec (fit_predict W eps (coords (r :: d)))) as [Hs He].
  rewrite (members_partition _ Hs (r :: d)); [unfold total_count at 2; simpl; lia | done |].
  apply Forall_forall. intros x Hx. by apply He.
Qed.

Lemma label_step_grows data0 data d props st l :
  Forall2 grows st.1 data0 →
  Forall2 grows (label_step data d props st l).1 data0.
Proof.
  destruct st as [nrd dbp]. simpl. intros Hg.
  destruct (l =? -1); [done|].
  unfold snap. destruct (length data =? 0)%nat; [done|].
  destruct (data !! _); [|done].
  destruct (Qltb _ _); [|done]. simpl.
  apply Forall2_alter_l; [done|].
  intros x y _ _ [Hc Hn]. split; [done|]. simpl. lia.
Qed.

Lemma reduce_chunk_grows reduced_data d :
  ∃ kept added,
    r_data (reduce_chunk W eps kw reduced_data d) = kept ++ added ∧
    Forall2 grows kept (r_data reduced_data).
Proof.
  assert (Hrefl : Forall2 grows (r_data reduced_data) (r_data reduced_data)).
  { apply Forall2_same_length_lookup_2; [done|].
    intros i x y Hx Hy. rewrite Hx in Hy. injection Hy as <-.
    split; [done | lia]. }
  unfold reduce_chunk. destruct (length d =? 0)%nat.
  { exists (r_data reduced_data), []. by rewrite app_nil_r. }
  cbv zeta.
  assert (Hg : Forall2 grows
            (foldl (label_step (r_data reduced_data) d
                      (fit_predict W eps (coords d)))
                   (r_data reduced_data, [])
                   (np_unique (fit_predict W eps (coords d)))).1
            (r_data reduced_data)).
  { generalize (np_unique (fit_predict W eps (coords d))). intros ls.
    assert (Hgen : ∀ st, Forall2 grows st.1 (r_data reduced_data) →
      Forall2 grows
        (foldl (label_step (r_data reduced_data) d
                  (fit_predict W eps (coords d))) st ls).1
        (r_data reduced_data)).
    { induction ls as [|l ls IH]; intros st Hst; [done|].
      simpl. apply IH. by apply label_step_grows. }
    by apply Hgen. }
  destruct (foldl _ _ _) as [nrd dbp]. simpl in Hg |- *.
  by exists nrd, dbp.
Qed.

(** A reduction never removes, moves or reorders a summary point, and
    never lowers a count: the summary it produces starts with the old
    points, each with its coordinates and a count at least as large,
    and the new points come after them. *)
Theorem reduction_keeps_summary_points (chunks : list (list reading))
    (reduced_data : reduced) :
  ∃ kept added,
    r_data (foldl (reduce_chunk W eps kw) reduced_data chunks)
    = kept ++ added ∧
    Forall2 grows kept (r_data reduced_data).
Proof.
  revert reduced_data. induction chunks as [|d chunks IH]; intros r.
  - exists (r_data r), []. rewrite app_nil_r. split; [done|].
    apply Forall2_same_length_lookup_2; [done|].
    intros i x y Hx Hy. rewrite Hx in Hy. injection Hy as <-.
    split; [done | lia].
  - simpl. destruct (IH (reduce_chunk W eps kw r d)) as (kept & added & -> & Hk).
    destruct (reduce_chunk_grows r d) as (kept1 & added1 & Hr & Hk1).
    rewrite Hr in Hk. apply Forall2_app_inv_r in Hk
      as (k1 & k2 & Hka & Hkb & ->).
    exists k1, (k2 ++ added). split; [by rewrite app_assoc|].
    assert (Htrans : ∀ a b c, grows a b → grows b c → grows a c).
    { intros a b c [H1 H2] [H3 H4]. split; [congruence | lia]. }
    clear - Hka Hk1 Htrans. revert k1 kept1 Hka Hk1.
    induction (r_data r) as [|o old IHo]; intros k1 kept1 Hka Hk1.
    + apply Forall2_nil_inv_r in Hk1 as ->.
      by apply Forall2_nil_inv_r in Hka as ->.
    + apply Forall2_cons_inv_r in Hk1 as (x & xs & Hx & Hxs & ->).
      apply Forall2_cons_inv_r in Hka as (y & ys & Hy & Hys & ->).
      constructor; [by eapply Htrans | by eapply IHo].
Qed.

(** Every reading of the chunks is counted once: the counts of the
    summary after a reduction add up to the counts before it plus the
    number of readings reduced (density clustering labels each point). *)
Theorem reduction_counts_every_reading (chunks : list (list reading))
    (reduced_data : reduced) :
  (∀ points, length (fit_predict W eps points) = length points) →
  total_count (r_data (foldl (reduce_chunk W eps kw) reduced_data chunks))
  = total_count (r_data reduced_data) + Z.of_nat (length (concat chunks)).
Proof.
  intros Hfit. revert reduced_data.
  induction chunks as [|d chunks IH]; intros r; simpl; [lia|].
  rewrite IH, reduce_chunk_total, length_app.
  - lia.
  - unfold coords. rewrite Hfit. by rewrite length_fmap.
Qed.

End ReductionProofs.

Lemma reduction_counts_every_reading_witness :
  total_count
    (r_data
       (foldl (@reduce_chunk sample_numeric
                 (sample_world (Ok (mk_reduced 0 [])) (Ok tt) (Ok []))
                 (1 # 100000) (mk_kwargs 7 0 2000))
              (mk_reduced 0 [mk_summary_point 0 0 2])
              (cut [mk_reading 0 0 0; mk_reading 1000 0 0])))
  = total_count [mk_summary_point 0 0 2]
    + Z.of_nat (length (concat (cut [mk_reading 0 0 0; mk_reading 1000 0 0]))).
Proof.
  apply (@reduction_counts_every_reading sample_numeric
           (sample_world (Ok (mk_reduced 0 [])) (Ok tt) (Ok []))
           (1 # 100000) (mk_kwargs 7 0 2000)
           (cut [mk_reading 0 0 0; mk_reading 1000 0 0])
           (mk_reduced 0 [mk_summary_point 0 0 2])).
  intros points. simpl. apply length_fmap.
Defined.

(** ** Density extractor: the cluster count and the degenerate clouds *)

Lemma elbow_bounds score : ∀ i k,
  elbow i score = Some k → i + 1 ≤ k ≤ i + Z.of_nat (length score).
Proof.
  induction score as [|s score IH]; intros i k; simpl; [done|].
  destruct score as [|s' score].
  - intros [= <-]. simpl. lia.
  - destruct (Qltb (s' - s) (1 # 100)).
    + intros [= <-]. simpl length. lia.
    + intros Hk. apply IH in Hk. simpl length in *. lia.
Qed.

Lemma elbow_none score i : elbow i score = None ↔ score = [].
Proof.
  split; [|by intros ->].
  revert i. induction score as [|s score IH]; intros i; [done|]. simpl.
  destruct score as [|s' score]; [done|].
  destruct (Qltb _ _); [done|]. intros Hn. by apply IH in Hn.
Qed.

Lemma K_clusters_length k_max pointcount :
  Z.of_nat (length (K_clusters k_max pointcount))
  = Z.max 0 (Z.min k_max pointcount - 1).
Proof. unfold K_clusters, range. rewrite length_fmap, length_seq. lia. Qed.

(** The cluster count that the elbow loop selects is one of the counts
    that were fitted and scored. *)
Theorem elbow_picks_candidate (f : Z → Q) (k_max pointcount k : Z) :
  elbow 0 (map f (K_clusters k_max pointcount)) = Some k →
  k ∈ K_clusters k_max pointcount.
Proof.
  intros Hk. apply elbow_bounds in Hk.
  rewrite length_fmap, K_clusters_length in Hk.
  apply K_clusters_spec. lia.
Qed.

Lemma elbow_picks_candidate_witness :
  2 ∈ K_clusters 10 100.
Proof.
  apply (elbow_picks_candidate
           (fun k => if k <? 2 then (-5)%Q else (-1 # 1000)%Q) 10 100 2).
  reflexivity.
Defined.

(** The weighted cloud of lines 181-183. *)
Definition cloud (reduced_data : reduced) : list (Q * Q) :=
  flat_map (fun point => replicate (Z.to_nat (count point))
                           (sp_latitude point, sp_longitude point))
           (r_data reduced_data).

Section ExtractProofs.
Context `{Numeric}.
Variables (W : World) (k_max : Z) (kw : kwargs).

(** A summary whose cloud is empty (no point, or no positive count)
    makes the extractor raise [KeyError]; a cloud of a single point, or
    [k_max <= 1], leaves no candidate count, and the extractor raises
    [UnboundLocalError] when it reads [k]. *)
Theorem extract_degenerate_cloud (reduced_data : reduced) (log : list reduced) :
  (cloud reduced_data = [] →
     extract W k_max kw reduced_data log = (Raise KeyError, log)) ∧
  (cloud reduced_data ≠ [] →
     Z.min k_max (Z.of_nat (length (cloud reduced_data))) ≤ 1 →
     extract W k_max kw reduced_data log = (Raise UnboundLocalError, log)).
Proof.
  unfold extract, cloud, io_bind, lift. cbv zeta. split.
  - by intros ->.
  - intros Hne Hmin.
    destruct (flat_map _ _) as [|p ps] eqn:E; [done|].
    assert (Hk : K_clusters k_max (Z.of_nat (length (p :: ps))) = []).
    { pose proof (K_clusters_length k_max (Z.of_nat (length (p :: ps)))) as Hl.
      destruct (K_clusters k_max (Z.of_nat (length (p :: ps)))) as [|c cs];
        [done|].
      change (length (c :: cs)) with (S (length cs)) in Hl. lia. }
    by rewrite Hk.
Qed.

(** With a cloud of at least two points and [k_max >= 2], an empty
    requested window gives the empty list. *)
Theorem extract_empty_window (reduced_data : reduced) (log : list reduced) :
  2 ≤ k_max → (2 ≤ length (cloud reduced_data))%nat →
  gps W (kw_id kw) (kw_start kw) (kw_end kw) = Ok [] →
  extract W k_max kw reduced_data log = (Ok [], log).
Proof.
  intros Hk Hn Hg. unfold extract, cloud in *. unfold io_bind, lift. cbv zeta.
  destruct (flat_map _ _) as [|p ps] eqn:E; [simpl in Hn; lia|].
  destruct (elbow 0 _) as [k|] eqn:Ek.
  - by rewrite Hg.
  - apply elbow_none in Ek. apply (f_equal length) in Ek.
    rewrite length_fmap in Ek. apply (f_equal Z.of_nat) in Ek.
    rewrite K_clusters_length in Ek. simpl length in *. lia.
Qed.

End ExtractProofs.

Lemma extract_degenerate_cloud_witness :
  @extract sample_numeric (sample_world (Ok (mk_reduced 0 [])) (Ok tt) (Ok []))
    10 (mk_kwargs 7 0 2000) (mk_reduced 2000 []) []
  = (Raise KeyError, []) ∧
  @extract sample_numeric (sample_world (Ok (mk_reduced 0 [])) (Ok tt) (Ok []))
    10 (mk_kwargs 7 0 2000) (mk_reduced 2000 [mk_summary_point 0 0 1]) []
  = (Raise UnboundLocalError, []).
Proof.
  split.
  - apply (@extract_degenerate_cloud sample_numeric
             (sample_world (Ok (mk_reduced 0 [])) (Ok tt) (Ok []))
             10 (mk_kwargs 7 0 2000) (mk_reduced 2000 []) []).
    reflexivity.
  - apply (@extract_degenerate_cloud sample_numeric
             (sample_world (Ok (mk_reduced 0 [])) (Ok tt) (Ok []))
             10 (mk_kwargs 7 0 2000)
             (mk_reduced 2000 [mk_summary_point 0 0 1]) []).
    + discriminate.
    + simpl. lia.
Defined.

Lemma extract_empty_window_witness :
  @extract sample_numeric (sample_world (Ok (mk_reduced 0 [])) (Ok tt) (Ok []))
    10 (mk_kwargs 7 0 2000) (mk_reduced 2000 [mk_summary_point 0 0 2]) []
  = (Ok [], []).
Proof.
  apply (@extract_empty_window sample_numeric
           (sample_world (Ok (mk_reduced 0 [])) (Ok tt) (Ok []))
           10 (mk_kwargs 7 0 2000)
           (mk_reduced 2000 [mk_summary_point 0 0 2]) []).
  - lia.
  - simpl. lia.
  - reflexivity.
Defined.

(** ** Proximity merge: survivors, separated inputs, idempotence *)

(** [separated D l]: no location of [l] is within the merge distance [D]
    of a later one. *)
Fixpoint separated `{Numeric} (D : Q) (l : list location) : bool :=
  match l with
  | [] => true
  | c :: rest =>
      forallb (fun y => negb (near D (latlon c) y)) rest && separated D rest
  end.

Definition rerank (l : list location) : list location :=
  imap (fun i cl => set_rank (Z.of_nat i) cl) l.

(** [defined_pairs l]: [distance] returns a value (its [math.sqrt] calls
    do not raise) on every location of [l] paired with a later one. *)
Fixpoint defined_pairs `{Numeric} (l : list location) : bool :=
  match l with
  | [] => true
  | c :: rest =>
      forallb (fun y => distance_defined (latlon c) (latlon y)) rest
      && defined_pairs rest
  end.

Section MergeMore.
Context `{Numeric}.
Variable MAX_DIST : Q.

Lemma remove_clusters_rerank clusters :
  remove_clusters clusters MAX_DIST
  = rerank (List.filter (fun cl => Qltb 0 (proportion cl))
                        (merge_scan MAX_DIST clusters)).
Proof. reflexivity. Qed.

(** Every location the merge returns has a positive proportion, and it
    returns no more locations than it was given. *)
Theorem remove_clusters_survivors (clusters : list location) :
  Forall (fun c => (0 < proportion c)%Q) (remove_clusters clusters MAX_DIST) ∧
  (length (remove_clusters clusters MAX_DIST) ≤ length clusters)%nat.
Proof.
  rewrite remove_clusters_rerank. unfold rerank. split.
  - pose proof (rerank_fields
      (List.filter (fun cl => Qltb 0 (proportion cl))
                   (merge_scan MAX_DIST clusters)) Z.of_nat) as HF.
    apply Forall_forall. intros o Ho.
    apply list_elem_of_lookup in Ho as [k Hk].
    destruct (Forall2_lookup_l _ _ _ _ _ HF Hk) as (c & Hc & _ & Hp & _).
    rewrite Hp. apply Qltb_lt.
    apply list_elem_of_lookup_2, list_elem_of_In, filter_In in Hc. tauto.
  - rewrite length_imap.
    etransitivity; [apply filter_length_le|].
    unfold merge_scan. by rewrite merge_upto_length.
Qed.

Lemma absorb_none ll big rest :
  Forall (fun y => near MAX_DIST ll y = false) rest →
  absorb MAX_DIST ll big rest = big ∧ map (dim MAX_DIST ll) rest = rest.
Proof.
  induction 1 as [|y rest Hy _ [IHa IHd]]; simpl; [done|].
  rewrite Hy, IHa. unfold dim at 1. by rewrite Hy, IHd.
Qed.

Lemma separated_drop l : ∀ i x,
  separated MAX_DIST l = true → l !! i = Some x →
  Forall (fun y => near MAX_DIST (latlon x) y = false) (drop (S i) l).
Proof.
  induction l as [|c l IH]; intros i x Hs Hi; [by rewrite lookup_nil in Hi|].
  simpl in Hs. apply andb_prop in Hs as [Hc Hs].
  destruct i as [|i]; simpl in Hi |- *.
  - injection Hi as <-. rewrite drop_0. apply Forall_forall. intros y Hy.
    rewrite forallb_forall in Hc. apply negb_true_iff, Hc.
    by apply list_elem_of_In.
  - by apply IH.
Qed.

Lemma merge_scan_separated l :
  separated MAX_DIST l = true → merge_scan MAX_DIST l = l.
Proof.
  intros Hs. apply (merge_scan_invariant MAX_DIST (fun s => s = l)); [done|].
  intros s i _ ->.
  destruct (l !! i) as [big|] eqn:Hi; [|by rewrite merge_from_out].
  rewrite (merge_from_spec _ _ _ _ Hi).
  destruct (Qltb 0 (proportion big)); [|done].
  destruct (absorb_none (latlon big) big (drop (S i) l)
              (separated_drop l i big Hs Hi)) as [-> ->].
  by apply take_drop_middle.
Qed.

Lemma filter_all {A} (f : A → bool) (l : list A) :
  forallb f l = true → List.filter f l = l.
Proof.
  induction l as [|x l IH]; simpl; [done|].
  intros Hx. apply andb_prop in Hx as [-> Hl]. by rewrite IH.
Qed.

(** When [distance] returns on every pair of locations (the scan then
    compares exactly these pairs, in which the earlier location is
    paired with each later one), no location is within [MAX_DIST] of a
    later one and every proportion is positive, the merge changes
    nothing but the ranks, which become the positions. *)
Theorem remove_clusters_separated (clusters : list location) :
  defined_pairs clusters = true →
  separated MAX_DIST clusters = true →
  forallb (fun cl => Qltb 0 (proportion cl)) clusters = true →
  remove_clusters clusters MAX_DIST = rerank clusters.
Proof.
  intros _ Hs Hp. rewrite remove_clusters_rerank, merge_scan_separated by done.
  by rewrite filter_all.
Qed.

(** A location that a scanning location finds within the merge distance
    ends the scan with proportion 0. *)
Lemma merge_scan_absorbed clusters i j a c :
  clusters !! i = Some a → clusters !! j = Some c → (i < j)%nat →
  scanned_positive MAX_DIST clusters i = true →
  near MAX_DIST (latlon a) c = true →
  merge_scan MAX_DIST clusters !! j = Some (zeroed c).
Proof.
  intros Hi Hj Hij Hpos Hnear.
  pose proof (lookup_lt_Some _ _ _ Hj) as Hjn.
  assert (Hzj : merge_upto MAX_DIST clusters j !! j = Some (zeroed c)).
  { apply (merge_upto_absorbed MAX_DIST clusters i j a c); [done..|lia|lia]. }
  unfold merge_scan.
  destruct (decide (j = length clusters - 1)%nat) as [<-|Hne]; [done|].
  rewrite merge_upto_final by lia.
  rewrite merge_upto_S, <- (merge_upto_length MAX_DIST clusters j).
  rewrite (merge_from_lookup_eq _ _ _ _ Hzj). simpl.
  replace (Qltb 0 0) with false by done. done.
Qed.

(** A location that has a later location keeps a positive proportion
    only if it had one when scanned. *)
Lemma merge_scan_positive_scanned clusters i x :
  (S i < length clusters)%nat →
  merge_scan MAX_DIST clusters !! i = Some x →
  Qltb 0 (proportion x) = true →
  scanned_positive MAX_DIST clusters i = true.
Proof.
  intros Hlt Hx Hpos. unfold merge_scan in Hx.
  rewrite merge_upto_final in Hx by lia.
  rewrite merge_upto_S, <- (merge_upto_length MAX_DIST clusters i) in Hx.
  destruct (lookup_lt_is_Some_2 (merge_upto MAX_DIST clusters i) i) as [y Hy].
  { rewrite merge_upto_length. lia. }
  rewrite (merge_from_lookup_eq _ _ _ _ Hy) in Hx.
  unfold scanned_positive. rewrite Hy.
  destruct (Qltb 0 (proportion y)) eqn:E; [done|].
  injection Hx as <-. congruence.
Qed.

Lemma merge_scan_place clusters :
  map place (merge_scan MAX_DIST clusters) = map place clusters.
Proof.
  apply (merge_scan_invariant MAX_DIST
           (fun s => map place s = map place clusters)); [done|].
  intros s i _ Hs. by rewrite merge_from_place.
Qed.

Lemma place_latlon x c : place x = place c → latlon x = latlon c.
Proof. unfold place, latlon. congruence. Qed.

(** Two locations that both leave the scan with a positive proportion
    are not within the merge distance of each other. *)
Lemma merge_scan_survivors_apart clusters i j x y :
  (i < j)%nat →
  merge_scan MAX_DIST clusters !! i = Some x →
  merge_scan MAX_DIST clusters !! j = Some y →
  Qltb 0 (proportion x) = true → Qltb 0 (proportion y) = true →
  near MAX_DIST (latlon x) y = false.
Proof.
  intros Hij Hx Hy Hpx Hpy.
  assert (Hlen : length (merge_scan MAX_DIST clusters) = length clusters).
  { unfold merge_scan. apply merge_upto_length. }
  pose proof (lookup_lt_Some _ _ _ Hy) as Hjn. rewrite Hlen in Hjn.
  destruct (lookup_lt_is_Some_2 clusters i) as [a Ha]; [lia|].
  destruct (lookup_lt_is_Some_2 clusters j) as [c Hc]; [lia|].
  assert (Hxa : latlon x = latlon a).
  { apply place_latlon.
    pose proof (merge_scan_place clusters) as Hpl.
    apply (f_equal (fun l => l !! i)) in Hpl.
    rewrite !list_lookup_fmap, Hx, Ha in Hpl. simpl in Hpl. congruence. }
  assert (Hyc : latlon y = latlon c).
  { apply place_latlon.
    pose proof (merge_scan_place clusters) as Hpl.
    apply (f_equal (fun l => l !! j)) in Hpl.
    rewrite !list_lookup_fmap, Hy, Hc in Hpl. simpl in Hpl. congruence. }
  pose proof (merge_scan_positive_scanned clusters i x ltac:(lia) Hx Hpx)
    as Hscan.
  unfold near. rewrite Hxa, Hyc.
  destruct (Qltb (distance (latlon a) (latlon c)) MAX_DIST) eqn:E; [|done].
  rewrite (merge_scan_absorbed clusters i j a c Ha Hc Hij Hscan E) in Hy.
  injection Hy as <-. simpl in Hpy. discriminate.
Qed.

Lemma filter_separated l :
  (∀ i j x y, (i < j)%nat → l !! i = Some x → l !! j = Some y →
     Qltb 0 (proportion x) = true → Qltb 0 (proportion y) = true →
     near MAX_DIST (latlon x) y = false) →
  separated MAX_DIST (List.filter (fun cl => Qltb 0 (proportion cl)) l) = true.
Proof.
  induction l as [|c l IH]; intros Hpair; [done|]. simpl.
  assert (Hrest : separated MAX_DIST
                    (List.filter (fun cl => Qltb 0 (proportion cl)) l) = true).
  { apply IH. intros i j x y Hij Hx Hy. by apply (Hpair (S i) (S j)); [lia|..]. }
  destruct (Qltb 0 (proportion c)) eqn:Ec; [|done].
  simpl. rewrite Hrest, andb_true_r.
  apply forallb_forall. intros y Hy. apply filter_In in Hy as [Hy Hpy].
  apply list_elem_of_In, list_elem_of_lookup in Hy as [j Hj].
  apply negb_true_iff. by apply (Hpair 0%nat (S j) c y); [lia|..].
Qed.

Lemma forallb_imap_rank (g : location → bool) (l : list location) :
  (∀ r c, g (set_rank r c) = g c) → ∀ f : nat → Z,
  forallb g (imap (fun i cl => set_rank (f i) cl) l) = forallb g l.
Proof.
  intros Hg. induction l as [|c l IH]; intros f; simpl; [done|].
  rewrite Hg. f_equal. apply (IH (f ∘ S)).
Qed.

Lemma separated_imap_rank l : ∀ f : nat → Z,
  separated MAX_DIST (imap (fun i cl => set_rank (f i) cl) l)
  = separated MAX_DIST l.
Proof.
  induction l as [|c l IH]; intros f; simpl; [done|].
  f_equal; [|apply (IH (f ∘ S))].
  apply (forallb_imap_rank
           (fun y => negb (near MAX_DIST (latlon c) y)) l
           (fun r y => eq_refl) (f ∘ S)).
Qed.

Lemma rerank_rerank l : rerank (rerank l) = rerank l.
Proof.
  unfold rerank.
  assert (Hgen : ∀ (f : nat → Z) l,
            imap (fun i cl => set_rank (f i) cl)
                 (imap (fun i cl => set_rank (f i) cl) l)
            = imap (fun i cl => set_rank (f i) cl) l).
  { clear. intros f l. revert f.
    induction l as [|c l IH]; intros f; simpl; [done|].
    f_equal. apply (IH (f ∘ S)). }
  apply Hgen.
Qed.

(** Merging again with the same distance changes nothing. *)
Theorem remove_clusters_idempotent (clusters : list location) :
  remove_clusters (remove_clusters clusters MAX_DIST) MAX_DIST
  = remove_clusters clusters MAX_DIST.
Proof.
  rewrite (remove_clusters_rerank clusters).
  set (kept := List.filter (fun cl => Qltb 0 (proportion cl))
                           (merge_scan MAX_DIST clusters)).
  rewrite remove_clusters_rerank, merge_scan_separated.
  - rewrite filter_all; [apply rerank_rerank|].
    unfold rerank. rewrite (forallb_imap_rank _ kept); [|done].
    apply forallb_forall. intros c Hc. subst kept.
    apply filter_In in Hc. tauto.
  - unfold rerank. rewrite separated_imap_rank. subst kept.
    apply filter_separated. intros i j x y.
    apply merge_scan_survivors_apart.
Qed.

End MergeMore.

Lemma remove_clusters_separated_witness :
  @remove_clusters sample_numeric
    [mk_location 0 10 0 0 5 None (3 # 4) 5;
     mk_location 0 10 0 (1 # 100) 9 None (1 # 4) 7] 300
  = rerank [mk_location 0 10 0 0 5 None (3 # 4) 5;
            mk_location 0 10 0 (1 # 100) 9 None (1 # 4) 7].
Proof.
  apply (@remove_clusters_separated sample_numeric 300
           [mk_location 0 10 0 0 5 None (3 # 4) 5;
            mk_location 0 10 0 (1 # 100) 9 None (1 # 4) 7]);
    reflexivity.
Defined.

(** ** Frequency extractor: outcomes; proportions of the records *)

Lemma collect_ok {A B} (f : nat → A → result B) (l : list A) :
  (∀ i x, ∃ y, f i x = Ok y) → ∀ i, ∃ ys, collect f i l = Ok ys.
Proof.
  intros Hf. induction l as [|x l IH]; intros i; simpl; [by eexists|].
  destruct (Hf i x) as [y ->]. destruct (IH (S i)) as [ys ->].
  by eexists.
Qed.

Section ModeProofs.
Context `{Numeric}.

Lemma mode_record_ok kw df df_clusters idx center :
  ∃ loc, mode_record kw df df_clusters idx center = Ok loc.
Proof.
  unfold mode_record. cbv zeta.
  destruct (location_duration_returns df_clusters (Z.of_nat idx)) as (d & ->).
  by eexists.
Qed.

(** The frequency extractor never writes to the attachment store,
    whatever its outcome; a failure of the GPS source is its outcome;
    and an empty window gives the empty list. *)
Theorem mode_extractor_outcomes (W : World) (max_clusters : Z)
    (min_cluster_size MAX_DIST : Q) (kw : kwargs) (log : list reduced) :
  let run :=
    _significant_locations_mode W max_clusters min_cluster_size MAX_DIST
      kw log in
  run.2 = log ∧
  (∀ e, gps W (kw_id kw) (kw_start kw) (kw_end kw) = Raise e →
        run.1 = Raise e) ∧
  (gps W (kw_id kw) (kw_start kw) (kw_end kw) = Ok [] → run.1 = Ok []).
Proof.
  cbv zeta. unfold _significant_locations_mode, io_bind, lift, io_ret.
  destruct (gps W _ _ _) as [[|r rest]|e].
  - split; [done|]. split; [discriminate | done].
  - split; [|split; discriminate].
    cbn [length Nat.eqb].
    rewrite drop_repeated_timestamps_keep_changes. cbv zeta.
    destruct (if negb (max_clusters =? -1) then _ else _)
      as [cluster cluster_locs].
    by destruct (collect _ _ _).
  - split; [done|]. split; [by intros e' [= <-] | discriminate].
Qed.

Lemma select_length_le {A} (mask : list bool) : ∀ l : list A,
  (length (select mask l) ≤ length mask)%nat.
Proof.
  induction mask as [|b mask IH]; intros [|x l]; simpl; try lia.
  rewrite length_app. specialize (IH l). destruct b; simpl; lia.
Qed.

Lemma select_length_mono {A B} (f g : B → bool) (ls : list B) :
  (∀ x, f x = true → g x = true) → ∀ l : list A,
  (length (select (map f ls) l) ≤ length (select (map g ls) l))%nat.
Proof.
  intros Hfg. induction ls as [|x ls IH]; intros [|y l]; simpl; try lia.
  rewrite !length_app. specialize (IH l). specialize (Hfg x).
  destruct (f x), (g x); simpl; try lia; by specialize (Hfg eq_refl).
Qed.

Lemma ratio_bounds (a b : nat) :
  (a ≤ b)%nat → (0 < b)%nat →
  (0 <= inject_Z (Z.of_nat a) / inject_Z (Z.of_nat b) <= 1)%Q.
Proof.
  intros Hab Hb.
  assert (H0 : (0 < inject_Z (Z.of_nat b))%Q).
  { change 0%Q with (inject_Z 0). rewrite <- Zlt_Qlt. lia. }
  split.
  - apply Qle_shift_div_l; [done|]. rewrite Qmult_0_l.
    change 0%Q with (inject_Z 0). rewrite <- Zle_Qle. lia.
  - apply Qle_shift_div_r; [done|]. rewrite Qmult_1_l.
    rewrite <- Zle_Qle. lia.
Qed.

Lemma ratio_positive (a b : nat) :
  (0 < a)%nat → (0 < b)%nat →
  (0 < inject_Z (Z.of_nat a) / inject_Z (Z.of_nat b))%Q.
Proof.
  intros Ha Hb.
  assert (H0 : (0 < inject_Z (Z.of_nat b))%Q).
  { change 0%Q with (inject_Z 0). rewrite <- Zlt_Qlt. lia. }
  apply Qlt_shift_div_l; [done|]. rewrite Qmult_0_l.
  change 0%Q with (inject_Z 0). rewrite <- Zlt_Qlt. lia.
Qed.

(** The proportion of a density-path record lies in [0, 1]. *)
Theorem kmeans_record_proportion (kw : kwargs) (newdf : list reading)
    (props : list Z) (idx : nat) (center : Q * Q) (loc : location) :
  kmeans_record kw newdf props idx center = Ok loc → props ≠ [] →
  (0 <= proportion loc <= 1)%Q.
Proof.
  unfold kmeans_record. cbv zeta.
  destruct (_location_duration _ _) as [d|e]; [|done].
  simpl. intros [= <-] Hne. simpl. apply ratio_bounds.
  - unfold members. etransitivity; [apply select_length_le|].
    by rewrite length_fmap.
  - destruct props; [done | simpl; lia].
Qed.

(** The proportion of a frequency-path record that has a row assigned
    to it lies in (0, 1]. *)
Theorem mode_record_proportion (kw : kwargs) (df : list reading)
    (df_clusters : list labelled) (idx : nat) (center : Q * Q)
    (loc : location) :
  mode_record kw df df_clusters idx center = Ok loc →
  members df (labels df_clusters) (Z.of_nat idx) ≠ [] →
  (0 < proportion loc <= 1)%Q.
Proof.
  unfold mode_record. cbv zeta.
  destruct (_location_duration _ _) as [d|e]; [|done].
  simpl. intros [= <-] Hne. simpl.
  assert (Hle : (length (members df (labels df_clusters) (Z.of_nat idx))
                 ≤ length (select (map (fun l => negb (l =? -1)%Z)
                                       (labels df_clusters)) df))%nat).
  { unfold members. apply select_length_mono. intros x Hx.
    apply Z.eqb_eq in Hx. subst x. apply negb_true_iff, Z.eqb_neq. lia. }
  assert (Hpos : (0 < length (members df (labels df_clusters) (Z.of_nat idx)))%nat).
  { destruct (members _ _ _); [done | simpl; lia]. }
  split; [apply ratio_positive; lia | apply ratio_bounds; lia].
Qed.

End ModeProofs.

Lemma mode_extractor_outcomes_witness :
  let kw := mk_kwargs 7 0 2000 in
  (@_significant_locations_mode sample_numeric
     (sample_world (Ok (mk_reduced 0 [])) (Ok tt) (Raise (Failure 2)))
     (-1) (1 # 100) 300 kw []).1 = Raise (Failure 2) ∧
  (@_significant_locations_mode sample_numeric
     (sample_world (Ok (mk_reduced 0 [])) (Ok tt) (Ok []))
     (-1) (1 # 100) 300 kw []).1 = Ok [].
Proof.
  pose proof (@mode_extractor_outcomes sample_numeric
                (sample_world (Ok (mk_reduced 0 [])) (Ok tt) (Raise (Failure 2)))
                (-1) (1 # 100) 300 (mk_kwargs 7 0 2000) []) as T1.
  pose proof (@mode_extractor_outcomes sample_numeric
                (sample_world (Ok (mk_reduced 0 [])) (Ok tt) (Ok []))
                (-1) (1 # 100) 300 (mk_kwargs 7 0 2000) []) as T2.
  cbv zeta in T1, T2.
  destruct T1 as (_ & Hfail & _). destruct T2 as (_ & _ & Hempty).
  split; [apply Hfail | apply Hempty]; reflexivity.
Defined.

(** The size threshold is the truncation of a rounded float product:
    with [min_cluster_size = 0.29] and 100 rows the product is the float
    below 29, and the threshold is 28, not 29. *)
Example min_cluster_points_rounds :
  py_int (float_times_len (29 # 100) 100) = 28 ∧
  py_int ((29 # 100) * inject_Z 100) = 29.
Proof. split; vm_compute; reflexivity. Qed.

Lemma kmeans_record_proportion_witness :
  (0 <= 2 # 2 <= 1)%Q.
Proof.
  apply (@kmeans_record_proportion sample_numeric (mk_kwargs 7 0 2000)
           [mk_reading 0 0 0; mk_reading 1000 0 0] [0; 0] 0 (0, 0)%Q
           (mk_location 0 2000 0 0 0 (Some (0 # 20000000000000000000000)%Q)
                        (2 # 2) (-1000))).
  - vm_compute. reflexivity.
  - discriminate.
Defined.

Lemma mode_record_proportion_witness :
  (0 < 2 # 2 <= 1)%Q.
Proof.
  apply (@mode_record_proportion sample_numeric (mk_kwargs 7 0 2000)
           [mk_reading 0 37 (-122); mk_reading 1000 37 (-122)]
           [(mk_reading 0 37 (-122), 0); (mk_reading 1000 37 (-122), 0)]
           0 (37, -122)%Q
           (mk_location 0 2000 37 (-122) 0 None (2 # 2) (-1000))).
  - vm_compute. reflexivity.
  - discriminate.
Defined.
